(** * blendExpl: the chunk parser, the SDNA catalog and the name-driven
      queries of [blendexpl.cpp], embedded in Rocq.

    Conventions of the embedding.
    - The file buffer is a [list byte]; a pointer into it is its offset
      ([Z]) from [m_fileSpan.begin].  The buffer comes from [new uint8_t[]],
      whose storage is aligned for every scalar type, so the low two bits
      of an address are the low two bits of its offset ([Align4]).
    - [size_t] and [PtrType] are 64-bit: a value is a [Z] and every
      arithmetic step on it is followed by [wrap64].
    - Multi-byte values are read as the little-endian host reads them.
    - A computation is a [run A]: it returns ([Ret]) or it stops with a
      [fault].  [assert] is compiled in or out by the build flag [NDEBUG].
    - Console output is not part of the result. *)

From Stdlib Require Import ZArith List String Ascii Bool Lia Sorted.
From Stdlib.Strings Require Import Byte.
Import ListNotations.
Open Scope string_scope.
Open Scope list_scope.
Open Scope Z_scope.

(** ** Faults and the [run] monad *)

Inductive fault : Type :=
| AssertionFailed      (* assert(...) of a build without NDEBUG *)
| OutOfRange           (* std::vector::at / string_view::substr throws *)
| BadOptionalAccess    (* std::optional::value on an empty optional *)
| WildRead             (* a read outside the storage it points into *)
| Diverges             (* a loop whose state no longer changes *)
| OutOfFuel.           (* the bound of a fuelled model was reached *)

Inductive run (A : Type) : Type :=
| Ret (a : A)
| Fault (f : fault).

Arguments Ret {A} a.
Arguments Fault {A} f.

Definition bind {A B : Type} (m : run A) (k : A -> run B) : run B :=
  match m with
  | Ret a => k a
  | Fault f => Fault f
  end.

Notation "x <- m ;; k" := (bind m (fun x => k))
  (at level 61, m at next level, right associativity).
Notation "' pat <- m ;; k" := (bind m (fun x => match x with pat => k end))
  (at level 61, pat pattern, m at next level, right associativity).

(** ** 64-bit arithmetic *)

Definition wrap64 (z : Z) : Z := z mod 2 ^ 64.

Definition size_max : Z := 2 ^ 64 - 1.   (* size_t(-1) *)

(** ** std::string_view helpers *)

Definition char_code (c : ascii) : Z := Z.of_N (N_of_ascii c).

Definition isdigit (c : ascii) : bool :=
  (char_code "0" <=? char_code c) && (char_code c <=? char_code "9").

Fixpoint starts_with (p s : string) : bool :=
  match p, s with
  | EmptyString, _ => true
  | String _ _, EmptyString => false
  | String a p', String b s' => Ascii.eqb a b && starts_with p' s'
  end.

(** [find_first_of c s]: index of the first [c] in [s], [None] for npos. *)
Fixpoint find_first_of (c : ascii) (s : string) : option nat :=
  match s with
  | EmptyString => None
  | String a r =>
      if Ascii.eqb a c then Some O
      else option_map S (find_first_of c r)
  end.

Fixpoint string_skip (n : nat) (s : string) : string :=
  match n, s with
  | O, _ => s
  | S k, EmptyString => EmptyString
  | S k, String _ r => string_skip k r
  end.

(** ** GetFieldSizeByName *)

(** The inner [while(isdigit( *filedNameSpan.Data() ))] loop.  [k] is what
    follows it: [count *= num; filedNameSpan.Advance();] and the next turn
    of the outer loop, on the characters after the one skipped.  At the end
    of the view the byte read is the terminator of the name (not a digit);
    the [Advance] then moves [begin] past [end], [Size()] wraps around to a
    huge value and the outer loop reads behind the terminated name. *)
Definition digits_loop (k : string -> Z -> run Z) : string -> Z -> run Z :=
  fix digits (t : string) (num : Z) : run Z :=
    match t with
    | EmptyString => Fault WildRead
    | String d t' =>
        if isdigit d
        then digits t' (wrap64 (wrap64 (num * 10) + (char_code d - char_code "0")))
        else k t' num
    end.

(** The outer [while(filedNameSpan.Size() > 0)] loop over the characters
    from the first '[' to the end of the view. *)
Fixpoint array_loop (s : string) (count : Z) : run Z :=
  match s with
  | EmptyString => Ret count
  | String c r =>
      if Ascii.eqb c "["
      then digits_loop (fun t' num => array_loop t' (wrap64 (count * num))) r 0
      else if Ascii.eqb c zero
      then Ret count
      else Fault Diverges
  end.

(** The two-character marker of a pointer to function or to array: an
    opening parenthesis followed by a star. *)
Definition paren_star : string := String "(" "*".

Definition GetFieldSizeByName (fieldName : string) (fieldLen : Z) : run Z :=
  let length :=
    if starts_with "*" fieldName || starts_with paren_star fieldName
    then 8 (* sizeof(blender::PtrType) *)
    else fieldLen in
  count <-
    match find_first_of "[" fieldName with
    | Some idxOfArray => array_loop (string_skip idxOfArray fieldName) 1
    | None => Ret 1
    end ;;
  Ret (wrap64 (length * count)).

(** ** The file buffer *)

Definition byte_code (b : byte) : Z := Z.of_N (Byte.to_N b).

Definition in_range (i : Z) (n : nat) : bool := (0 <=? i) && (i <? Z.of_nat n).

(** One byte at pointer [p]; a pointer outside the buffer is a wild read. *)
Definition peek (file : list byte) (p : Z) : run byte :=
  if in_range p (List.length file)
  then match nth_error file (Z.to_nat p) with
       | Some b => Ret b
       | None => Fault WildRead
       end
  else Fault WildRead.

Fixpoint read_bytes (file : list byte) (p : Z) (n : nat) : run (list byte) :=
  match n with
  | O => Ret []
  | S k =>
      b <- peek file p ;;
      bs <- read_bytes file (p + 1) k ;;
      Ret (b :: bs)
  end.

Fixpoint le_value (bs : list byte) : Z :=
  match bs with
  | [] => 0
  | b :: r => byte_code b + 256 * le_value r
  end.

(** [*reinterpret_cast<uintN_t*>(p)] for N = 8 * n. *)
Definition read_uint (file : list byte) (p : Z) (n : nat) : run Z :=
  bs <- read_bytes file p n ;;
  Ret (le_value bs).

(** [std::string_view(const char* )]: the characters up to the first NUL. *)
Fixpoint c_str (mem : list byte) : run string :=
  match mem with
  | [] => Fault WildRead
  | b :: r =>
      if Byte.eqb b x00 then Ret EmptyString
      else s <- c_str r ;; Ret (String (ascii_of_byte b) s)
  end.

Definition read_c_str (file : list byte) (p : Z) : run string :=
  if in_range p (List.length file)
  then c_str (skipn (Z.to_nat p) file)
  else Fault WildRead.

Definition bytes_eqb (a b : list byte) : bool :=
  if list_eq_dec Byte.byte_eq_dec a b then true else false.

(** [memcmp(bytes, id, n) == 0] on bytes already fetched. *)
Definition Identify (bytes id : list byte) (n : nat) : bool :=
  bytes_eqb (firstn n bytes) (firstn n id).

(** ** std::vector *)

Definition vector_at {A : Type} (v : list A) (i : Z) : run A :=
  if in_range i (List.length v)
  then match nth_error v (Z.to_nat i) with
       | Some a => Ret a
       | None => Fault OutOfRange
       end
  else Fault OutOfRange.

Fixpoint list_set {A : Type} (v : list A) (i : nat) (a : A) : list A :=
  match v, i with
  | [], _ => []
  | _ :: r, O => a :: r
  | x :: r, S k => x :: list_set r k a
  end.

(** [v.at(i) = a], after [v.at(i)] has been found to exist. *)
Definition vector_set {A : Type} (v : list A) (i : Z) (a : A) : list A :=
  if in_range i (List.length v) then list_set v (Z.to_nat i) a else v.

Definition vector_resize {A : Type} (d : A) (v : list A) (n : nat) : list A :=
  firstn n v ++ repeat d (n - List.length v).

(** ** MemorySpan *)

Module MemorySpan.
Record t : Type := mk { begin_ : Z; end_ : Z }.

Definition Empty (s : t) : bool := end_ s - begin_ s <=? 0.
Definition Data (s : t) : Z := begin_ s.
Definition Size (s : t) : Z := wrap64 (end_ s - begin_ s).
Definition Advance (s : t) (d : Z) : t := mk (begin_ s + d) (end_ s).
Definition Align4 (s : t) : t :=
  let misAlign := Z.land (begin_ s) 3 in
  if negb (misAlign =? 0) then Advance s (4 - misAlign) else s.
Definition AsString (file : list byte) (s : t) : run string :=
  read_c_str file (begin_ s).
End MemorySpan.

(** [ReadTypePtr<T>(span, count)]: the pointer and the advanced span. *)
Definition ReadTypePtr (sizeofT : Z) (span : MemorySpan.t) (count : Z)
  : Z * MemorySpan.t :=
  (MemorySpan.Data span, MemorySpan.Advance span (sizeofT * count)).

(** [PeekTypePtr<T>(span, offset)]: a pointer, nothing is read yet. *)
Definition PeekTypePtr (span : MemorySpan.t) (offset : Z) : Z :=
  MemorySpan.Data (MemorySpan.Advance span offset).

(** ** The blender records *)

Module FileBlockDesc64.
Record t : Type := mk {
  code : list byte;          (* uint8_t code[4] *)
  size : Z;                  (* uint32_t *)
  oldMemoryAddress : Z;      (* PtrType *)
  sdnaIndex : Z;             (* uint32_t *)
  count : Z                  (* uint32_t *)
}.
Definition sizeof : Z := 24.
End FileBlockDesc64.

Module FileBlock.
#[warnings="-register-all"]
Inductive t : Type := mk {
  desc : FileBlockDesc64.t;
  data : MemorySpan.t;
  childBlocks : list t;
  fileOffset : Z
}.
End FileBlock.

Module TypeInfo.
Record t : Type := mk { type : MemorySpan.t; length : Z (* uint16_t *) }.
End TypeInfo.

Module FieldDesc.
Record t : Type := mk { typeIndex : Z; nameIndex : Z }.
End FieldDesc.

Module StructDesc.
Record t : Type := mk { typeIndex : Z; fields : list FieldDesc.t }.
End StructDesc.

Definition bytes_of (s : string) : list byte := list_byte_of_string s.

Definition HeaderID : list byte := bytes_of "BLENDER".
Definition BlockSDNA : list byte := bytes_of "DNA1".
Definition BlockDATA : list byte := bytes_of "DATA".
Definition EOBMark : list byte := bytes_of "ENDB".

(** The members of [blendExpl]; [m_file] is the storage [m_fileSpan]
    covers, at offsets [0 .. length m_file). *)
Record blendExpl : Type := mkBlendExpl {
  m_file : list byte;
  m_blockArray : list FileBlock.t;
  m_nameArray : list MemorySpan.t;
  m_typeArray : list TypeInfo.t;
  m_structArray : list StructDesc.t
}.

Definition set_blockArray (self : blendExpl) (v : list FileBlock.t) :=
  mkBlendExpl (m_file self) v (m_nameArray self) (m_typeArray self)
    (m_structArray self).

(** The object after [Cleanup()] and the load of the file. *)
Definition Cleanup (file : list byte) : blendExpl :=
  mkBlendExpl file [] [] [] [].

Definition m_fileSpan (self : blendExpl) : MemorySpan.t :=
  MemorySpan.mk 0 (Z.of_nat (List.length (m_file self))).

(** [*blendBlock]: the 24 bytes of a block header. *)
Definition read_desc (file : list byte) (p : Z) : run FileBlockDesc64.t :=
  code <- read_bytes file p 4 ;;
  size <- read_uint file (p + 4) 4 ;;
  oldMemoryAddress <- read_uint file (p + 8) 8 ;;
  sdnaIndex <- read_uint file (p + 16) 4 ;;
  count <- read_uint file (p + 20) 4 ;;
  Ret (FileBlockDesc64.mk code size oldMemoryAddress sdnaIndex count).

(** ** The parser *)

Section Build.

(** [true] for a build that defines NDEBUG: every [assert] vanishes
    together with the evaluation of its argument. *)
Variable NDEBUG : bool.

Definition assert_ (cond : run bool) : run unit :=
  if NDEBUG then Ret tt
  else c <- cond ;; if c then Ret tt else Fault AssertionFailed.

Definition IdentifyAt (file : list byte) (p : Z) (id : string) : run bool :=
  bs <- read_bytes file p 4 ;;
  Ret (Identify bs (bytes_of id) 4).

(** [while(!blockSpan.Empty() && *blockSpan.Data() != 0) blockSpan.Advance();]
    The loop runs at most once per byte left in the span: [n] is that
    number, and when it is used up the span is empty. *)
Fixpoint scan_to_nul (file : list byte) (n : nat) (blockSpan : MemorySpan.t)
  : run MemorySpan.t :=
  match n with
  | O => Ret blockSpan
  | S k =>
      if MemorySpan.Empty blockSpan then Ret blockSpan
      else
        b <- peek file (MemorySpan.Data blockSpan) ;;
        if Byte.eqb b x00 then Ret blockSpan
        else scan_to_nul file k (MemorySpan.Advance blockSpan 1)
  end.

(** One turn of the NAME or TYPE loop: the span of the string and the
    cursor behind its terminating 0. *)
Definition read_string (file : list byte) (blockSpan : MemorySpan.t)
  : run (MemorySpan.t * MemorySpan.t) :=
  let begin := MemorySpan.begin_ blockSpan in
  blockSpan <-
    scan_to_nul file
      (Z.to_nat (MemorySpan.end_ blockSpan - MemorySpan.begin_ blockSpan))
      blockSpan ;;
  let blockSpan := MemorySpan.Advance blockSpan 1 in
  Ret (MemorySpan.mk begin (MemorySpan.Data blockSpan), blockSpan).

(** [for(i < count)] of the NAME and TYPE sections; [entry] builds the
    element that is emplaced ([MemorySpan] itself, or [TypeInfo{span, 0}]). *)
Fixpoint read_strings {A : Type} (entry : MemorySpan.t -> A)
    (file : list byte) (count : nat) (blockSpan : MemorySpan.t)
    (array : list A) : run (list A * MemorySpan.t) :=
  match count with
  | O => Ret (array, blockSpan)
  | S k =>
      '(span, blockSpan) <- read_string file blockSpan ;;
      read_strings entry file k blockSpan (array ++ [entry span])
  end.

(** The TLEN loop, [i] counting up from 0. *)
Fixpoint read_lengths (file : list byte) (count : nat) (i : Z)
    (blockSpan : MemorySpan.t) (typeArray : list TypeInfo.t)
  : run (list TypeInfo.t * MemorySpan.t) :=
  match count with
  | O => Ret (typeArray, blockSpan)
  | S k =>
      let '(p, blockSpan) := ReadTypePtr 2 blockSpan 1 in
      len <- read_uint file p 2 ;;
      ti <- vector_at typeArray i ;;
      read_lengths file k (i + 1) blockSpan
        (vector_set typeArray i (TypeInfo.mk (TypeInfo.type ti) len))
  end.

Fixpoint read_fields (file : list byte) (numFields : nat)
    (blockSpan : MemorySpan.t) (fields : list FieldDesc.t)
  : run (list FieldDesc.t * MemorySpan.t) :=
  match numFields with
  | O => Ret (fields, blockSpan)
  | S k =>
      let '(p, blockSpan) := ReadTypePtr 2 blockSpan 1 in
      fieldTypeIdx <- read_uint file p 2 ;;
      let '(p, blockSpan) := ReadTypePtr 2 blockSpan 1 in
      fieldNameIdx <- read_uint file p 2 ;;
      read_fields file k blockSpan
        (fields ++ [FieldDesc.mk fieldTypeIdx fieldNameIdx])
  end.

(** The STRC loop over the resized [m_structArray]. *)
Fixpoint read_structs (file : list byte) (count : nat) (i : Z)
    (blockSpan : MemorySpan.t) (structArray : list StructDesc.t)
  : run (list StructDesc.t * MemorySpan.t) :=
  match count with
  | O => Ret (structArray, blockSpan)
  | S k =>
      structDesc <- vector_at structArray i ;;
      let '(p, blockSpan) := ReadTypePtr 2 blockSpan 1 in
      typeIndex <- read_uint file p 2 ;;
      let '(p, blockSpan) := ReadTypePtr 2 blockSpan 1 in
      numFields <- read_uint file p 2 ;;
      '(fields, blockSpan) <-
        read_fields file (Z.to_nat numFields) blockSpan
          (StructDesc.fields structDesc) ;;
      read_structs file k (i + 1) blockSpan
        (vector_set structArray i (StructDesc.mk typeIndex fields))
  end.

(** [ParseSDNA(block, blockSpan)]: [block] points at the header of the
    DNA1 block and [blockSpan] is the caller's stream behind that header,
    up to the end of the file. *)
Definition ParseSDNA (self : blendExpl) (block : Z)
    (blockSpan : MemorySpan.t) : run blendExpl :=
  let file := m_file self in
  sdnaDataSize <- read_uint file (block + 4) 4 ;;
  let '(sdnaHeaderId, blockSpan) := ReadTypePtr 1 blockSpan 4 in
  _ <- assert_ (IdentifyAt file sdnaHeaderId "SDNA") ;;
  (* names *)
  let '(sdnaName, blockSpan) := ReadTypePtr 1 blockSpan 4 in
  _ <- assert_ (IdentifyAt file sdnaName "NAME") ;;
  let '(p, blockSpan) := ReadTypePtr 4 blockSpan 1 in
  nameCount <- read_uint file p 4 ;;
  '(nameArray, blockSpan) <-
    read_strings (fun s => s) file (Z.to_nat nameCount) blockSpan
      (m_nameArray self) ;;
  (* types *)
  let blockSpan := MemorySpan.Align4 blockSpan in
  let '(sdnaTypes, blockSpan) := ReadTypePtr 1 blockSpan 4 in
  _ <- assert_ (IdentifyAt file sdnaTypes "TYPE") ;;
  let '(p, blockSpan) := ReadTypePtr 4 blockSpan 1 in
  typeCount <- read_uint file p 4 ;;
  '(typeArray, blockSpan) <-
    read_strings (fun s => TypeInfo.mk s 0) file (Z.to_nat typeCount)
      blockSpan (m_typeArray self) ;;
  (* lengths *)
  let blockSpan := MemorySpan.Align4 blockSpan in
  let '(sdnaLengths, blockSpan) := ReadTypePtr 1 blockSpan 4 in
  _ <- assert_ (IdentifyAt file sdnaLengths "TLEN") ;;
  '(typeArray, blockSpan) <-
    read_lengths file (Z.to_nat typeCount) 0 blockSpan typeArray ;;
  (* structures *)
  let blockSpan := MemorySpan.Align4 blockSpan in
  let '(sdnaStructs, blockSpan) := ReadTypePtr 1 blockSpan 4 in
  _ <- assert_ (IdentifyAt file sdnaStructs "STRC") ;;
  let '(p, blockSpan) := ReadTypePtr 4 blockSpan 1 in
  structCount <- read_uint file p 4 ;;
  let structArray :=
    vector_resize (StructDesc.mk 0 []) (m_structArray self)
      (Z.to_nat structCount) in
  '(structArray, blockSpan) <-
    read_structs file (Z.to_nat structCount) 0 blockSpan structArray ;;
  Ret (mkBlendExpl file (m_blockArray self) nameArray typeArray structArray).

(** [m_blockArray.at(parentId).childBlocks.emplace_back(block)] *)
Definition add_child (blocks : list FileBlock.t) (parentId : Z)
    (block : FileBlock.t) : run (list FileBlock.t) :=
  parent <- vector_at blocks parentId ;;
  Ret (vector_set blocks parentId
         (FileBlock.mk (FileBlock.desc parent) (FileBlock.data parent)
            (FileBlock.childBlocks parent ++ [block])
            (FileBlock.fileOffset parent))).

(** What one turn of the loop of [ParseFile] leaves behind: the state for
    the next turn, or the state at the [break]. *)
Inductive turn : Type :=
| Continue (self : blendExpl) (memoryStream : MemorySpan.t) (parentId : Z)
| Break (self : blendExpl).

(** The body of [while(!memoryStream.Empty())] in [ParseFile]. *)
Definition parse_block (self : blendExpl) (memoryStream : MemorySpan.t)
    (parentId : Z) : run turn :=
  let file := m_file self in
  let '(blendBlock, memoryStream) :=
    ReadTypePtr FileBlockDesc64.sizeof memoryStream 1 in
  desc <- read_desc file blendBlock ;;
  let block :=
    FileBlock.mk desc
      (MemorySpan.mk (MemorySpan.begin_ memoryStream)
         (MemorySpan.begin_ memoryStream + FileBlockDesc64.size desc))
      [] (blendBlock - MemorySpan.begin_ (m_fileSpan self)) in
  let self := set_blockArray self (m_blockArray self ++ [block]) in
  let advanced :=
    MemorySpan.Align4
      (MemorySpan.Advance memoryStream (FileBlockDesc64.size desc)) in
  if Identify (FileBlockDesc64.code desc) BlockDATA 4 then
    _ <- assert_ (Ret (negb (parentId =? size_max))) ;;
    blocks <- add_child (m_blockArray self) parentId block ;;
    Ret (Continue (set_blockArray self blocks) advanced parentId)
  else if Identify (FileBlockDesc64.code desc) BlockSDNA 4 then
    self <- ParseSDNA self blendBlock memoryStream ;;
    Ret (Continue self advanced
           (wrap64 (Z.of_nat (List.length (m_blockArray self)) - 1)))
  else if Identify (FileBlockDesc64.code desc) EOBMark 4 then
    Ret (Break self)
  else
    Ret (Continue self advanced
           (wrap64 (Z.of_nat (List.length (m_blockArray self)) - 1))).

(** The loop of [ParseFile].  Every turn moves the cursor forward by at
    least one header, so the loop ends; [fuel] bounds the number of turns
    of the model. *)
Fixpoint parse_loop (fuel : nat) (self : blendExpl)
    (memoryStream : MemorySpan.t) (parentId : Z) : run blendExpl :=
  match fuel with
  | O => Fault OutOfFuel
  | S fuel' =>
      if MemorySpan.Empty memoryStream then Ret self
      else
        t <- parse_block self memoryStream parentId ;;
        match t with
        | Continue self memoryStream parentId =>
            parse_loop fuel' self memoryStream parentId
        | Break self => Ret self
        end
  end.

(** What [ParseFile] returns and prints: [true] is [Parsed]; the three
    [false] returns differ in the message written to the console
    ("File not found!", "ERROR - file header magic mismatch!",
    "ERROR - this parser supports only 64bit, little endian blend files!"). *)
Inductive ParseStatus : Type :=
| Parsed
| FileNotFound
| FormatError
| UnsupportedVariant.

Inductive PointerSize : Type := PTR_4 | PTR_8.
Inductive Endianness : Type := LittleEndian | BigEndian.

(** [ParseFile], from the point where the content of the file is in
    memory ([file] is empty when the file could not be read). *)
Definition ParseFile (file : list byte) : run (ParseStatus * blendExpl) :=
  let self := Cleanup file in
  if MemorySpan.Empty (m_fileSpan self) then Ret (FileNotFound, self)
  else
    let memoryStream := m_fileSpan self in
    let '(blendHeader, memoryStream) := ReadTypePtr 12 memoryStream 1 in
    id <- read_bytes file blendHeader 7 ;;
    if negb (Identify id HeaderID 7) then Ret (FormatError, self)
    else
      pointerSize <- peek file (blendHeader + 7) ;;
      _ <- assert_ (Ret (Byte.eqb pointerSize "-"%byte
                         || Byte.eqb pointerSize "_"%byte)) ;;
      let ptrSize := if Byte.eqb pointerSize "_"%byte then PTR_4 else PTR_8 in
      endianness <- peek file (blendHeader + 8) ;;
      let endian :=
        if Byte.eqb endianness "v"%byte then LittleEndian else BigEndian in
      match ptrSize, endian with
      | PTR_8, LittleEndian =>
          version <- read_bytes file (blendHeader + 9) 3 ;;
          self <- parse_loop (S (List.length file)) self memoryStream size_max ;;
          Ret (Parsed, self)
      | _, _ => Ret (UnsupportedVariant, self)
      end.

End Build.

(** ** The queries *)

Section Queries.

Variable NDEBUG : bool.
Variable self : blendExpl.

Let file := m_file self.

(** [FindFileBlockByOldAddr]: the range-for over [m_blockArray]. *)
Fixpoint find_by_old_addr (blocks : list FileBlock.t) (oldAddressOfBlock : Z)
  : option FileBlock.t :=
  match blocks with
  | [] => None
  | block :: rest =>
      if FileBlockDesc64.oldMemoryAddress (FileBlock.desc block)
         =? oldAddressOfBlock
      then Some block
      else find_by_old_addr rest oldAddressOfBlock
  end.

Definition FindFileBlockByOldAddr (oldAddressOfBlock : Z)
  : option FileBlock.t :=
  if negb (oldAddressOfBlock =? 0)
  then find_by_old_addr (m_blockArray self) oldAddressOfBlock
  else None.

(** [m_nameArray.at(field.nameIndex).AsString()] *)
Definition field_name (field : FieldDesc.t) : run string :=
  span <- vector_at (m_nameArray self) (FieldDesc.nameIndex field) ;;
  MemorySpan.AsString file span.

(** [m_typeArray.at(structDesc.typeIndex)] and its [type.AsString()] *)
Definition struct_type_info (structDesc : StructDesc.t) : run TypeInfo.t :=
  vector_at (m_typeArray self) (StructDesc.typeIndex structDesc).

Definition struct_name (structDesc : StructDesc.t) : run string :=
  structTypeInfo <- struct_type_info structDesc ;;
  MemorySpan.AsString file (TypeInfo.type structTypeInfo).

(** [GetFieldSizeByName(fieldName, m_typeArray.at(field.typeIndex).length)] *)
Definition field_size (field : FieldDesc.t) (fieldName : string) : run Z :=
  ti <- vector_at (m_typeArray self) (FieldDesc.typeIndex field) ;;
  GetFieldSizeByName fieldName (TypeInfo.length ti).

(** The inner loop of [GetFieldOffset] over the fields of the struct. *)
Fixpoint offset_loop (fname : string) (fields : list FieldDesc.t)
    (offset : Z) : run Z :=
  match fields with
  | [] => Ret offset
  | field :: rest =>
      fieldName <- field_name field ;;
      if String.eqb fname fieldName then Ret offset
      else
        sz <- field_size field fieldName ;;
        offset_loop fname rest (wrap64 (offset + sz))
  end.

(** The outer loop of [GetFieldOffset] over [m_structArray]. *)
Fixpoint struct_loop (sname fname : string) (structs : list StructDesc.t)
  : run Z :=
  match structs with
  | [] => Ret 0
  | structDesc :: rest =>
      name <- struct_name structDesc ;;
      if String.eqb sname name
      then offset_loop fname (StructDesc.fields structDesc) 0
      else struct_loop sname fname rest
  end.

Definition GetFieldOffset (sname fname : string) : run Z :=
  struct_loop sname fname (m_structArray self).

Fixpoint size_loop (structName : string) (structs : list StructDesc.t)
  : run Z :=
  match structs with
  | [] => Ret 0
  | structDesc :: rest =>
      structTypeInfo <- struct_type_info structDesc ;;
      name <- MemorySpan.AsString file (TypeInfo.type structTypeInfo) ;;
      if String.eqb structName name
      then Ret (TypeInfo.length structTypeInfo)
      else size_loop structName rest
  end.

Definition GetStructSizeByName (structName : string) : run Z :=
  size_loop structName (m_structArray self).

Definition IdentifyStruct (id : Z) (name : string) : run bool :=
  _ <- assert_ NDEBUG
         (Ret (id <? Z.of_nat (List.length (m_structArray self)))) ;;
  structDesc <- vector_at (m_structArray self) id ;;
  n <- struct_name structDesc ;;
  Ret (String.eqb name n).

(** [*PeekTypePtr<blender::PtrType>(block.data, offset)] *)
Definition read_ptr (block : FileBlock.t) (offset : Z) : run Z :=
  read_uint file (PeekTypePtr (FileBlock.data block) offset) 8.

(** [std::string_view(PeekTypePtr<char>(block.data, offset))] *)
Definition read_name (block : FileBlock.t) (offset : Z) : run string :=
  read_c_str file (PeekTypePtr (FileBlock.data block) offset).

Definition GetBlockNameByID (block : FileBlock.t) (offsetBy2 : bool)
  : run string :=
  offset <- GetFieldOffset "ID" "name[66]" ;;
  nameView <- read_name block offset ;;
  if offsetBy2
  then if (String.length nameView <? 2)%nat then Fault OutOfRange
       else Ret (string_skip 2 nameView)
  else Ret nameView.

(** [TraverseCollectionObjects].  The recursion of the source has no
    bound; [fuel] bounds the depth of the model.  The result is the
    sequence of CollectionObject blocks whose body was executed. *)
Fixpoint TraverseCollectionObjects (fuel : nat) (addr : Z)
  : run (list FileBlock.t) :=
  match fuel with
  | O => Fault OutOfFuel
  | S fuel' =>
      match FindFileBlockByOldAddr addr with
      | None => Ret []
      | Some collectionObject =>
          _ <- assert_ NDEBUG
                 (IdentifyStruct
                    (FileBlockDesc64.sdnaIndex (FileBlock.desc collectionObject))
                    "CollectionObject") ;;
          obOffset <- GetFieldOffset "CollectionObject" "*ob" ;;
          obAddr <- read_ptr collectionObject obOffset ;;
          _ <- match FindFileBlockByOldAddr obAddr with
               | Some ob => GetBlockNameByID ob true
               | None => Ret EmptyString
               end ;;
          nextOffset <- GetFieldOffset "CollectionObject" "*next" ;;
          nextAddr <- read_ptr collectionObject nextOffset ;;
          if negb (nextAddr =? 0)
          then rest <- TraverseCollectionObjects fuel' nextAddr ;;
               Ret (collectionObject :: rest)
          else Ret [collectionObject]
      end
  end.

(** [ExplorePoseChannel]: the reads behind its console output. *)
Definition ExplorePoseChannel (poseChannel : FileBlock.t) : run unit :=
  nameOffset <- GetFieldOffset "bPoseChannel" "name[64]" ;;
  chanNameView <- read_name poseChannel nameOffset ;;
  boneOffset <- GetFieldOffset "bPoseChannel" "*bone" ;;
  chanBoneAddr <- read_ptr poseChannel boneOffset ;;
  let chanBone := FindFileBlockByOldAddr chanBoneAddr in
  _ <- assert_ NDEBUG
         (Ret (match chanBone with Some _ => true | None => false end)) ;;
  bone <- match chanBone with
          | Some b => Ret b
          | None => Fault BadOptionalAccess
          end ;;
  boneNameOffset <- GetFieldOffset "Bone" "name[64]" ;;
  boneNameView <- read_name bone boneNameOffset ;;
  matOffset <- GetFieldOffset "bPoseChannel" "chan_mat[4][4]" ;;
  chanMat <- read_bytes file
               (PeekTypePtr (FileBlock.data poseChannel) matOffset) 64 ;;
  Ret tt.

(** [TraversePoseChannels], with the same [fuel] and result as above. *)
Fixpoint TraversePoseChannels (fuel : nat) (poseChanAddr : Z)
  : run (list FileBlock.t) :=
  match fuel with
  | O => Fault OutOfFuel
  | S fuel' =>
      match FindFileBlockByOldAddr poseChanAddr with
      | None => Ret []
      | Some poseChannel =>
          _ <- assert_ NDEBUG
                 (IdentifyStruct
                    (FileBlockDesc64.sdnaIndex (FileBlock.desc poseChannel))
                    "bPoseChannel") ;;
          _ <- ExplorePoseChannel poseChannel ;;
          nextOffset <- GetFieldOffset "bPoseChannel" "*next" ;;
          nextAddr <- read_ptr poseChannel nextOffset ;;
          if negb (nextAddr =? 0)
          then rest <- TraversePoseChannels fuel' nextAddr ;;
               Ret (poseChannel :: rest)
          else Ret [poseChannel]
      end
  end.

End Queries.

(** ** Sample containers

    Encoders for the container format, used to build the concrete files on
    which the theorems below are exercised. *)

Definition byte_of_Z (z : Z) : byte :=
  match Byte.of_N (Z.to_N (z mod 256)) with
  | Some b => b
  | None => x00
  end.

Fixpoint le_bytes (n : nat) (z : Z) : list byte :=
  match n with
  | O => []
  | S k => byte_of_Z z :: le_bytes k (z / 256)
  end.

Definition count_of {A : Type} (l : list A) : Z := Z.of_nat (List.length l).

Definition pad4 (bs : list byte) : list byte :=
  bs ++ repeat x00 (Z.to_nat ((4 - count_of bs mod 4) mod 4)).

Definition c_strings (l : list string) : list byte :=
  flat_map (fun s => bytes_of s ++ [x00]) l.

Definition encode_struct (s : Z * list (Z * Z)) : list byte :=
  le_bytes 2 (fst s) ++ le_bytes 2 (count_of (snd s))
  ++ flat_map (fun f => le_bytes 2 (fst f) ++ le_bytes 2 (snd f)) (snd s).

(** The payload of a DNA1 block: names, types with their lengths, and
    structs as (type index, [(field type index, field name index)]). *)
Definition sdna_payload (names : list string) (types : list (string * Z))
    (structs : list (Z * list (Z * Z))) : list byte :=
  pad4 (bytes_of "SDNA" ++ bytes_of "NAME" ++ le_bytes 4 (count_of names)
        ++ c_strings names)
  ++ pad4 (bytes_of "TYPE" ++ le_bytes 4 (count_of types)
           ++ c_strings (map fst types))
  ++ pad4 (bytes_of "TLEN" ++ flat_map (fun t => le_bytes 2 (snd t)) types)
  ++ bytes_of "STRC" ++ le_bytes 4 (count_of structs)
  ++ flat_map encode_struct structs.

Definition code2 (s : string) : list byte := bytes_of s ++ [x00; x00].

Definition chunk (code : list byte) (addr sdna count : Z)
    (payload : list byte) : list byte :=
  code ++ le_bytes 4 (count_of payload) ++ le_bytes 8 addr
  ++ le_bytes 4 sdna ++ le_bytes 4 count ++ pad4 payload.

Definition zeros (n : nat) : list byte := repeat x00 n.

Definition sample_names : list string :=
  ["a"; "b[2]"; "v"; "x"; "*next"; "*prev"; "*ob"; "name[66]"; "name[64]";
   "*bone"; "chan_mat[4][4]"; "*mtex[18]"].

Definition sample_types : list (string * Z) :=
  [("int", 4); ("Foo", 12); ("void", 0); ("Bar", 99);
   ("CollectionObject", 24); ("char", 1); ("ID", 66);
   ("bPoseChannel", 152); ("Bone", 64); ("float", 4); ("Object", 8)].

(** Foo { int a; int b[2]; }   Bar { void v; int x; }
    CollectionObject { CollectionObject *next, *prev; Object *ob; }
    ID { char name[66]; }
    bPoseChannel { bPoseChannel *next, *prev; char name[64]; Bone *bone;
                   float chan_mat[4][4]; }
    Bone { char name[64]; } *)
Definition sample_structs : list (Z * list (Z * Z)) :=
  [(1, [(0, 0); (0, 1)]);
   (3, [(2, 2); (0, 3)]);
   (4, [(4, 4); (4, 5); (10, 6)]);
   (6, [(5, 7)]);
   (7, [(7, 4); (7, 5); (5, 8); (8, 9); (9, 10)]);
   (8, [(5, 8)])].

Definition sample_dna : list byte :=
  chunk BlockSDNA 0 0 1 (sdna_payload sample_names sample_types sample_structs).

Definition pose_channel (next bone : Z) (name : string) : list byte :=
  le_bytes 8 next ++ le_bytes 8 0
  ++ bytes_of name ++ zeros (64 - String.length name)
  ++ le_bytes 8 bone ++ zeros 64.

(** A scene block that owns a Foo instance (a = 5, b = {1, 2}) and a chain
    of two CollectionObject blocks, an object block that owns a chain of
    three pose channels and their bone, the schema, and the end mark
    followed by bytes that are never looked at. *)
Definition sample_file : list byte :=
  bytes_of "BLENDER-v300"
  ++ chunk (code2 "SC") 4096 0 1 (zeros 8)
  ++ chunk BlockDATA 4112 0 1 (le_bytes 4 5 ++ le_bytes 4 1 ++ le_bytes 4 2)
  ++ chunk BlockDATA 8192 2 1 (le_bytes 8 12288 ++ le_bytes 8 0 ++ le_bytes 8 0)
  ++ chunk BlockDATA 12288 2 1 (le_bytes 8 0 ++ le_bytes 8 8192 ++ le_bytes 8 0)
  ++ chunk (code2 "OB") 16384 0 1 (zeros 8)
  ++ chunk BlockDATA 20480 4 1 (pose_channel 24576 32768 "root")
  ++ chunk BlockDATA 24576 4 1 (pose_channel 28672 32768 "spine")
  ++ chunk BlockDATA 28672 4 1 (pose_channel 0 32768 "head")
  ++ chunk BlockDATA 32768 5 1 (bytes_of "Bone" ++ zeros 60)
  ++ sample_dna
  ++ chunk EOBMark 0 0 0 []
  ++ bytes_of "trailing bytes".

(** The object after [ParseFile] of the sample (empty if it fails). *)
Definition sample : blendExpl :=
  Eval vm_compute in
    match ParseFile false sample_file with
    | Ret (Parsed, self) => self
    | _ => Cleanup []
    end.

(** The [n]-th struct of the sample catalog: Foo, Bar, CollectionObject,
    ID, bPoseChannel, Bone. *)
Definition sample_struct (n : nat) : StructDesc.t :=
  nth n (m_structArray sample) (StructDesc.mk 0 []).

(** ** Specification-side vocabulary *)

(** A field name carries the pointer marker. *)
Definition pointer_marked (fieldName : string) : bool :=
  starts_with "*" fieldName || starts_with paren_star fieldName.

Fixpoint digits_only (d : string) : bool :=
  match d with
  | EmptyString => true
  | String c r => isdigit c && digits_only r
  end.

(** The number a string of decimal digits denotes, continuing from [num]. *)
Fixpoint decimal_from (num : Z) (d : string) : Z :=
  match d with
  | EmptyString => num
  | String c r => decimal_from (num * 10 + (char_code c - char_code "0")) r
  end.

Definition decimal_value (d : string) : Z := decimal_from 0 d.

(** The text [[d1][d2]...] of a list of dimensions. *)
Fixpoint brackets (dims : list string) : string :=
  match dims with
  | [] => EmptyString
  | d :: r => String "[" (d ++ String "]" (brackets r))%string
  end.

Definition product (l : list Z) : Z := fold_right Z.mul 1 l.

Definition total (l : list Z) : Z := fold_right Z.add 0 l.

(** The digit loop computes, modulo 2^64, the number the digits denote. *)
Fixpoint wrapped_from (num : Z) (d : string) : Z :=
  match d with
  | EmptyString => num
  | String c r =>
      wrapped_from (wrap64 (wrap64 (num * 10) + (char_code c - char_code "0"))) r
  end.

(** "For every field name that begins with the pointer marker and also
    carries a bracketed array suffix, EffectiveSize returns exactly 8." *)
Definition pointer_width_overrides_array : Prop :=
  forall fieldName L,
    pointer_marked fieldName = true ->
    find_first_of "[" fieldName <> None ->
    GetFieldSizeByName fieldName L = Ret 8.

(** ** Catalog vocabulary *)

Section CatalogSpec.

Variable self : blendExpl.

(** The struct has a type name, and it is not [S]. *)
Definition named_other (S : string) (structDesc : StructDesc.t) : Prop :=
  exists n, struct_name self structDesc = Ret n /\ n <> S.

(** [first_struct_named S r]: [r] is the first struct of the catalog, in
    catalog order, whose type name is [S]; [None] when every struct has
    another name. *)
Inductive first_struct_named (S : string) : option StructDesc.t -> Prop :=
| no_struct_named :
    Forall (named_other S) (m_structArray self) ->
    first_struct_named S None
| struct_found (pre : list StructDesc.t) (structDesc : StructDesc.t)
    (post : list StructDesc.t) :
    m_structArray self = pre ++ structDesc :: post ->
    Forall (named_other S) pre ->
    struct_name self structDesc = Ret S ->
    first_struct_named S (Some structDesc).

(** The decoded name and the effective size of a field. *)
Definition field_is (field : FieldDesc.t) (e : string * Z) : Prop :=
  field_name self field = Ret (fst e)
  /\ field_size self field (fst e) = Ret (snd e).

(** The fields of a struct, in declaration order, with their names and
    effective sizes. *)
Definition field_layout (fields : list FieldDesc.t)
    (layout : list (string * Z)) : Prop :=
  Forall2 field_is fields layout.

(** The indices of the catalog are valid: the guarantee the spec gives
    for a built catalog. *)
Definition field_valid (field : FieldDesc.t) : bool :=
  in_range (FieldDesc.typeIndex field) (List.length (m_typeArray self))
  && in_range (FieldDesc.nameIndex field) (List.length (m_nameArray self)).

Definition struct_valid (structDesc : StructDesc.t) : bool :=
  in_range (StructDesc.typeIndex structDesc) (List.length (m_typeArray self))
  && forallb field_valid (StructDesc.fields structDesc).

Definition catalog_valid : bool := forallb struct_valid (m_structArray self).

End CatalogSpec.

(** ** The claims about lookups, as the spec words them *)

(** A lookup miss: no struct is named [S], or the first struct named [S]
    has no field named [f]. *)
Definition lookup_miss (self : blendExpl) (S f : string) : Prop :=
  first_struct_named self S None
  \/ exists structDesc layout,
       first_struct_named self S (Some structDesc)
       /\ field_layout self (StructDesc.fields structDesc) layout
       /\ ~ In f (map fst layout).

(** "OffsetOf(S, f) returns 0 on every lookup miss." *)
Definition miss_yields_zero (self : blendExpl) : Prop :=
  forall S f, lookup_miss self S f -> GetFieldOffset self S f = Ret 0.

(** "OffsetOf(S, f1) < OffsetOf(S, f2) whenever f1 precedes f2." *)
Definition offsets_increase (self : blendExpl) : Prop :=
  forall S structDesc layout,
    first_struct_named self S (Some structDesc) ->
    field_layout self (StructDesc.fields structDesc) layout ->
    forall i j e1 e2,
      (i < j)%nat ->
      nth_error layout i = Some e1 -> nth_error layout j = Some e2 ->
      exists o1 o2,
        GetFieldOffset self S (fst e1) = Ret o1
        /\ GetFieldOffset self S (fst e2) = Ret o2
        /\ o1 < o2.

(** "The sum of EffectiveSize over all fields of S equals S's declared
    type byte length." *)
Definition sizes_add_up (self : blendExpl) : Prop :=
  forall S structDesc layout,
    first_struct_named self S (Some structDesc) ->
    field_layout self (StructDesc.fields structDesc) layout ->
    GetStructSizeByName self S = Ret (total (map snd layout)).

(** ** Chunk vocabulary *)

Definition is_data (b : FileBlock.t) : bool :=
  Identify (FileBlockDesc64.code (FileBlock.desc b)) BlockDATA 4.

Definition is_end_mark (b : FileBlock.t) : bool :=
  Identify (FileBlockDesc64.code (FileBlock.desc b)) EOBMark 4.

Definition old_address (b : FileBlock.t) : Z :=
  FileBlockDesc64.oldMemoryAddress (FileBlock.desc b).

(** Two scene-like chunks recorded at the same original address. *)
Definition collision_file : list byte :=
  bytes_of "BLENDER-v300"
  ++ chunk (code2 "SC") 4096 0 1 (zeros 4)
  ++ chunk (code2 "OB") 4096 0 1 (zeros 8)
  ++ chunk EOBMark 0 0 0 [].

Definition collision : blendExpl :=
  Eval vm_compute in
    match ParseFile false collision_file with
    | Ret (Parsed, self) => self
    | _ => Cleanup []
    end.

(** A signature, the end mark, and bytes that are no chunk header. *)
Definition end_file : list byte :=
  bytes_of "BLENDER-v300" ++ chunk EOBMark 0 0 0 [] ++ bytes_of "no header".

Definition end_desc : FileBlockDesc64.t := FileBlockDesc64.mk EOBMark 0 0 0 0.

Definition end_cursor : MemorySpan.t :=
  MemorySpan.mk 12 (Z.of_nat (List.length end_file)).

(** A signature whose pointer-width tag is neither of the two known ones. *)
Definition unrecognised_file : list byte := bytes_of "BLENDERxv300".

(** "Parse fails with UnsupportedVariant for every buffer whose
    pointer-width tag is not the 8-byte variant or whose byte-order tag is
    not the little-endian variant", for buffers that hold a signature with
    the right magic. *)
Definition rejects_other_variants (NDEBUG : bool) : Prop :=
  forall file p e,
    (12 <= List.length file)%nat ->
    firstn 7 file = HeaderID ->
    nth_error file 7 = Some p ->
    nth_error file 8 = Some e ->
    p <> "-"%byte \/ e <> "v"%byte ->
    exists self, ParseFile NDEBUG file = Ret (UnsupportedVariant, self).

(** An owner chunk followed by the chunks of its children list. *)
Definition group (owner : FileBlock.t) : list FileBlock.t :=
  owner :: FileBlock.childBlocks owner.

(** A chunk as it sits in a children list: generic data, without children
    of its own. *)
Definition is_child (c : FileBlock.t) : Prop :=
  is_data c = true /\ FileBlock.childBlocks c = [].

(** A chunk that owns a children list: not generic data, and every child
    is. *)
Definition is_owner (o : FileBlock.t) : Prop :=
  is_data o = false /\ Forall is_child (FileBlock.childBlocks o).

(** "The top-level chunk sequence contains no generic-data chunks." *)
Definition top_level_has_no_data (self : blendExpl) : Prop :=
  Forall (fun b => is_data b = false) (m_blockArray self).

(** The block that [parse_block] builds from the header [desc] read at the
    cursor [memoryStream]. *)
Definition block_at (desc : FileBlockDesc64.t) (memoryStream : MemorySpan.t)
  : FileBlock.t :=
  FileBlock.mk desc
    (MemorySpan.mk (MemorySpan.begin_ memoryStream + FileBlockDesc64.sizeof)
       (MemorySpan.begin_ memoryStream + FileBlockDesc64.sizeof
        + FileBlockDesc64.size desc))
    [] (MemorySpan.begin_ memoryStream).

(** The cursor after the block: behind header and payload, aligned. *)
Definition cursor_after (desc : FileBlockDesc64.t) (memoryStream : MemorySpan.t)
  : MemorySpan.t :=
  MemorySpan.Align4
    (MemorySpan.Advance
       (MemorySpan.Advance memoryStream FileBlockDesc64.sizeof)
       (FileBlockDesc64.size desc)).

(** The owner a generic chunk is appended to: the last owner so far, found
    in the block array behind the groups of the owners before it; before
    the first owner [parentId] is [size_t(-1)]. *)
Definition last_owner (owners : list FileBlock.t) (parentId : Z) : Prop :=
  (owners = [] /\ parentId = size_max)
  \/ exists init o,
       owners = init ++ [o]
       /\ parentId = Z.of_nat (List.length (flat_map group init)).

(** The block array is made of groups, in file order. *)
Definition grouped (blocks : list FileBlock.t) (owners : list FileBlock.t)
  : Prop :=
  blocks = flat_map group owners
  /\ Forall is_owner owners
  /\ StronglySorted Z.lt (map FileBlock.fileOffset blocks).

(** What every turn of the loop keeps, for the file [file]. *)
Definition loop_invariant (file : list byte) (self : blendExpl)
    (memoryStream : MemorySpan.t) (parentId : Z) : Prop :=
  m_file self = file
  /\ MemorySpan.end_ memoryStream = Z.of_nat (List.length file)
  /\ 24 * Z.of_nat (List.length (m_blockArray self))
     <= MemorySpan.begin_ memoryStream
  /\ Forall (fun b => FileBlock.fileOffset b < MemorySpan.begin_ memoryStream)
       (m_blockArray self)
  /\ exists owners,
       grouped (m_blockArray self) owners /\ last_owner owners parentId.

(** ** Next-pointer chains *)

(** The two traversals the spec calls Navigate. *)
Inductive Traversal : Type := CollectionObjects | PoseChannels.

Section Chains.

Variable NDEBUG : bool.
Variable self : blendExpl.

Definition Navigate (k : Traversal) (fuel : nat) (addr : Z)
  : run (list FileBlock.t) :=
  match k with
  | CollectionObjects => TraverseCollectionObjects NDEBUG self fuel addr
  | PoseChannels => TraversePoseChannels NDEBUG self fuel addr
  end.

Definition struct_of (k : Traversal) : string :=
  match k with
  | CollectionObjects => "CollectionObject"
  | PoseChannels => "bPoseChannel"
  end.

(** What [TraverseCollectionObjects] does with a block between its
    assertion and the read of the next pointer. *)
Definition visit_collection_object (collectionObject : FileBlock.t)
  : run unit :=
  obOffset <- GetFieldOffset self "CollectionObject" "*ob" ;;
  obAddr <- read_ptr self collectionObject obOffset ;;
  _ <- match FindFileBlockByOldAddr self obAddr with
       | Some ob => GetBlockNameByID self ob true
       | None => Ret EmptyString
       end ;;
  Ret tt.

Definition visit (k : Traversal) (c : FileBlock.t) : run unit :=
  match k with
  | CollectionObjects => visit_collection_object c
  | PoseChannels => ExplorePoseChannel NDEBUG self c
  end.

(** The address held by the next field of a chunk. *)
Definition next_of (k : Traversal) (c : FileBlock.t) : run Z :=
  nextOffset <- GetFieldOffset self (struct_of k) "*next" ;;
  read_ptr self c nextOffset.

(** A link of a chain: [addr] resolves to the chunk [c], the assertion on
    its struct passes, its visit goes through, and its next field holds
    [next]. *)
Definition link (k : Traversal) (addr : Z) (c : FileBlock.t) (next : Z)
  : Prop :=
  FindFileBlockByOldAddr self addr = Some c
  /\ assert_ NDEBUG
       (IdentifyStruct NDEBUG self
          (FileBlockDesc64.sdnaIndex (FileBlock.desc c)) (struct_of k))
     = Ret tt
  /\ visit k c = Ret tt
  /\ next_of k c = Ret next.

(** [next_chain k addr chunks]: following the next pointers from [addr]
    leads through [chunks], in that order, and the last of them holds the
    null address. *)
Inductive next_chain (k : Traversal) : Z -> list FileBlock.t -> Prop :=
| chain_end : next_chain k 0 []
| chain_link (addr : Z) (c : FileBlock.t) (next : Z)
    (rest : list FileBlock.t) :
    link k addr c next ->
    next_chain k next rest ->
    next_chain k addr (c :: rest).

End Chains.

(** The [n]-th chunk of the sample. *)
Definition sample_block (n : nat) : FileBlock.t :=
  nth n (m_blockArray sample)
    (FileBlock.mk (FileBlockDesc64.mk [] 0 0 0 0) (MemorySpan.mk 0 0) [] 0).

(** A computation that does not stop on the bound of a fuelled model. *)
Definition fuel_free {A : Type} (m : run A) : Prop := m <> Fault OutOfFuel.

(** ** Further queries of [blendExpl] *)

Definition BlockOB : list byte := code2 "OB".

Section MoreQueries.

Variable NDEBUG : bool.
Variable self : blendExpl.

(** The [for(size_t i=offset; i<m_blockArray.size(); ++i)] of
    [FindBlockByCode], on the blocks from index [i] on. *)
Fixpoint find_code (blocks : list FileBlock.t) (code : list byte) (i : Z)
  : option Z :=
  match blocks with
  | [] => None
  | block :: rest =>
      if Identify (FileBlockDesc64.code (FileBlock.desc block)) code 4
      then Some i
      else find_code rest code (i + 1)
  end.

Definition FindBlockByCode (code : list byte) (offset : Z) : option Z :=
  if in_range offset (List.length (m_blockArray self))
  then find_code (skipn (Z.to_nat offset) (m_blockArray self)) code offset
  else None.

(** [FindParentObject]: the range-for over [m_blockArray]. *)
Fixpoint find_parent (blocks : list FileBlock.t) (oldAddressOfBlock : Z)
  : run (option FileBlock.t) :=
  match blocks with
  | [] => Ret None
  | block :: rest =>
      if negb (Identify (FileBlockDesc64.code (FileBlock.desc block)) BlockOB 4)
      then find_parent rest oldAddressOfBlock
      else
        offsetOfDataPtr <- GetFieldOffset self "Object" "*data" ;;
        dataPtr <- read_ptr self block offsetOfDataPtr ;;
        if dataPtr =? oldAddressOfBlock then Ret (Some block)
        else find_parent rest oldAddressOfBlock
  end.

Definition FindParentObject (oldAddressOfBlock : Z)
  : run (option FileBlock.t) :=
  find_parent (m_blockArray self) oldAddressOfBlock.





End MoreQueries.

(** ** Vocabulary for the further properties *)


(** Where the next header lies behind a chunk at [offset] with [size]
    bytes of payload. *)
Definition next_offset (offset size : Z) : Z :=
  MemorySpan.begin_
    (MemorySpan.Align4
       (MemorySpan.mk (offset + FileBlockDesc64.sizeof + size) 0)).

(** The blocks lie one behind the other in the file, from [start] to
    [finish]. *)
Fixpoint chunk_walk (start : Z) (blocks : list FileBlock.t) (finish : Z)
  : Prop :=
  match blocks with
  | [] => start = finish
  | b :: rest =>
      FileBlock.fileOffset b = start
      /\ chunk_walk
           (next_offset start (FileBlockDesc64.size (FileBlock.desc b)))
           rest finish
  end.

(** A stored block agrees with the file: its descriptor is the header at
    its offset, which lies aligned behind the signature, and its payload
    view begins behind the header and has the declared length. *)
Definition block_matches (file : list byte) (b : FileBlock.t) : Prop :=
  read_desc file (FileBlock.fileOffset b) = Ret (FileBlock.desc b)
  /\ FileBlock.data b
     = MemorySpan.mk (FileBlock.fileOffset b + FileBlockDesc64.sizeof)
         (FileBlock.fileOffset b + FileBlockDesc64.sizeof
          + FileBlockDesc64.size (FileBlock.desc b))
  /\ 12 <= FileBlock.fileOffset b
  /\ FileBlock.fileOffset b mod 4 = 0
  /\ FileBlock.fileOffset b + FileBlockDesc64.sizeof
     <= Z.of_nat (List.length file).

Definition is_schema (b : FileBlock.t) : bool :=
  Identify (FileBlockDesc64.code (FileBlock.desc b)) BlockSDNA 4.

Definition catalog_empty (self : blendExpl) : Prop :=
  m_nameArray self = [] /\ m_typeArray self = [] /\ m_structArray self = [].

(** What the chunk loop keeps about the stored blocks and the cursor. *)
Definition layout_invariant (file : list byte) (self : blendExpl)
    (memoryStream : MemorySpan.t) : Prop :=
  m_file self = file
  /\ MemorySpan.end_ memoryStream = Z.of_nat (List.length file)
  /\ 12 <= MemorySpan.begin_ memoryStream
  /\ MemorySpan.begin_ memoryStream mod 4 = 0
  /\ Forall (block_matches file) (m_blockArray self)
  /\ Forall (fun b => Forall (block_matches file) (FileBlock.childBlocks b))
       (m_blockArray self)
  /\ chunk_walk 12 (m_blockArray self) (MemorySpan.begin_ memoryStream).

(** The state a turn of the loop leaves behind. *)
Definition turn_state (t : turn) : blendExpl :=
  match t with
  | Continue self _ _ => self
  | Break self => self
  end.

(** A set of addresses that the next pointers never leave: each address
    of the set is a link whose next field holds an address of the set. *)
Definition closed_under_next (NDEBUG : bool) (self : blendExpl)
    (k : Traversal) (cycle : Z -> Prop) : Prop :=
  forall addr, cycle addr ->
    exists c next, link NDEBUG self k addr c next /\ cycle next.

(** ** Further sample containers *)

(** A generic chunk with no owner before it. *)
Definition orphan_file : list byte :=
  bytes_of "BLENDER-v300"
  ++ chunk BlockDATA 4096 0 1 (zeros 4)
  ++ chunk EOBMark 0 0 0 [].

(** A schema whose only struct names the type index 7 of a one-entry type
    table. *)
Definition bad_index_file : list byte :=
  bytes_of "BLENDER-v300"
  ++ chunk BlockSDNA 0 0 1
       (sdna_payload ["a"] [("int", 4)] [(7, [(0, 0)])])
  ++ chunk EOBMark 0 0 0 [].

Definition bad_index : blendExpl :=
  Eval vm_compute in
    match ParseFile false bad_index_file with
    | Ret (Parsed, self) => self
    | _ => Cleanup []
    end.

(** Two CollectionObject chunks whose next pointers lead to each other. *)
Definition cyclic_file : list byte :=
  bytes_of "BLENDER-v300"
  ++ chunk (code2 "SC") 4096 0 1 (zeros 8)
  ++ chunk BlockDATA 8192 0 1 (le_bytes 8 12288 ++ le_bytes 8 0 ++ le_bytes 8 0)
  ++ chunk BlockDATA 12288 0 1 (le_bytes 8 8192 ++ le_bytes 8 0 ++ le_bytes 8 0)
  ++ chunk BlockSDNA 0 0 1
       (sdna_payload ["*next"; "*prev"; "*ob"]
          [("CollectionObject", 24); ("Object", 8)]
          [(0, [(0, 0); (0, 1); (1, 2)])])
  ++ chunk EOBMark 0 0 0 [].

Definition cyclic : blendExpl :=
  Eval vm_compute in
    match ParseFile false cyclic_file with
    | Ret (Parsed, self) => self
    | _ => Cleanup []
    end.

Definition object_payload (name : string) (type adt data : Z) : list byte :=
  bytes_of name ++ zeros (66 - String.length name)
  ++ le_bytes 2 type ++ le_bytes 8 adt ++ le_bytes 8 data.

(** ID { char name[66]; }
    Object { ID id; short type; AnimData *adt; void *data; }
    bDeformGroup { char name[64]; }
    and: a mesh, the mesh object Cube that points at it and owns a deform
    group, and the armature object Rig. *)
Definition objects_file : list byte :=
  bytes_of "BLENDER-v300"
  ++ chunk (code2 "ME") 4096 0 1 (bytes_of "MECube" ++ zeros 60)
  ++ chunk BlockOB 8192 1 1 (object_payload "OBCube" 1 0 4096)
  ++ chunk BlockDATA 12288 2 1 (bytes_of "Group" ++ zeros 59)
  ++ chunk BlockOB 16384 1 1 (object_payload "OBRig" 25 0 0)
  ++ chunk BlockSDNA 0 0 1
       (sdna_payload ["name[66]"; "id"; "type"; "*adt"; "*data"; "name[64]"]
          [("char", 1); ("ID", 66); ("short", 2); ("AnimData", 8);
           ("void", 0); ("Object", 84); ("bDeformGroup", 64)]
          [(1, [(0, 0)]);
           (5, [(1, 1); (2, 2); (3, 3); (4, 4)]);
           (6, [(0, 5)])])
  ++ chunk EOBMark 0 0 0 [].

Definition objects : blendExpl :=
  Eval vm_compute in
    match ParseFile false objects_file with
    | Ret (Parsed, self) => self
    | _ => Cleanup []
    end.

(** The object after [ParseSDNA] on the schema chunk of the sample, which
    lies at offset 824 of the file, on an object with empty tables. *)
Definition sample_schema : blendExpl :=
  Eval vm_compute in
    match ParseSDNA false (Cleanup sample_file) 824
            (MemorySpan.mk 848 (Z.of_nat (List.length sample_file))) with
    | Ret self => self
    | Fault _ => Cleanup []
    end.

(** ** Well-formed schemas

    The schema of a container describes C structs.  A field name is a C
    declarator: a base name without a bracket, followed by its array
    dimensions in decimal.  A declarator with the pointer marker stands for
    pointers, of 8 bytes each, any other one for values of the field's
    type; and a struct is laid out without gaps, so that its declared
    length is the sum of what its fields occupy. *)


Section WellFormed.

Variable self : blendExpl.




End WellFormed.


(** Foo { int a; int b[2]; }
    Node { Node *next, *prev; void ( *free)(); float mat[4][4];
           Node *kids[2]; char name[64]; }
    and a Foo instance (a = 5, b = {1, 2}) owned by a scene block. *)
Definition packed_file : list byte :=
  bytes_of "BLENDER-v300"
  ++ chunk (code2 "SC") 4096 0 1 (zeros 8)
  ++ chunk BlockDATA 4112 0 1 (le_bytes 4 5 ++ le_bytes 4 1 ++ le_bytes 4 2)
  ++ chunk BlockSDNA 0 0 1
       (sdna_payload
          ["a"; "b[2]"; "*next"; "*prev"; (paren_star ++ "free)()")%string;
           "mat[4][4]"; "*kids[2]"; "name[64]"]
          [("int", 4); ("Foo", 12); ("Node", 168); ("void", 0);
           ("float", 4); ("char", 1)]
          [(1, [(0, 0); (0, 1)]);
           (2, [(2, 2); (2, 3); (3, 4); (4, 5); (2, 6); (5, 7)])])
  ++ chunk EOBMark 0 0 0 [].

Definition packed_sample : blendExpl :=
  Eval vm_compute in
    match ParseFile false packed_file with
    | Ret (Parsed, self) => self
    | _ => Cleanup []
    end.

(** ** The sections of a schema chunk *)

(** [z] rounded up to a multiple of 4, as [Align4] moves a cursor. *)
Definition align4 (z : Z) : Z :=
  MemorySpan.begin_ (MemorySpan.Align4 (MemorySpan.mk z 0)).

(** The spans lie one behind the other, from [start] to [finish]. *)
Fixpoint span_walk (start : Z) (spans : list MemorySpan.t) (finish : Z)
  : Prop :=
  match spans with
  | [] => start = finish
  | s :: rest =>
      MemorySpan.begin_ s = start
      /\ span_walk (MemorySpan.end_ s) rest finish
  end.

(** The span covers a string of the file together with its terminating
    0: its last byte is the first 0 from its begin on. *)
Definition c_string_span (file : list byte) (s : MemorySpan.t) : Prop :=
  MemorySpan.begin_ s < MemorySpan.end_ s
  /\ peek file (MemorySpan.end_ s - 1) = Ret x00
  /\ forall p, MemorySpan.begin_ s <= p < MemorySpan.end_ s - 1 ->
       exists b, peek file p = Ret b /\ b <> x00.

(** * Theorems *)

(** ** The [run] monad and 64-bit arithmetic *)

Lemma bind_Ret_inv {A B} (m : run A) (k : A -> run B) (b : B) :
  bind m k = Ret b -> exists a, m = Ret a /\ k a = Ret b.
Proof. destruct m as [a|f]; simpl; intros H; [eauto | discriminate]. Qed.

Lemma wrap64_small (z : Z) : 0 <= z < 2 ^ 64 -> wrap64 z = z.
Proof. intros H; unfold wrap64; apply Z.mod_small; exact H. Qed.

Lemma wrap64_mul_idemp_r (a b : Z) : wrap64 (a * wrap64 b) = wrap64 (a * b).
Proof. unfold wrap64; apply Z.mul_mod_idemp_r; discriminate. Qed.

Lemma wrap64_mul_idemp_l (a b : Z) : wrap64 (wrap64 a * b) = wrap64 (a * b).
Proof. unfold wrap64; apply Z.mul_mod_idemp_l; discriminate. Qed.

Lemma wrap64_add_idemp_l (a b : Z) : wrap64 (wrap64 a + b) = wrap64 (a + b).
Proof. unfold wrap64; apply Z.add_mod_idemp_l; discriminate. Qed.

Lemma wrap64_idemp (a : Z) : wrap64 (wrap64 a) = wrap64 a.
Proof. unfold wrap64; apply Z.mod_mod; discriminate. Qed.


(** ** GetFieldSizeByName *)

Lemma decimal_from_congr (d : string) : forall a b,
  wrap64 a = wrap64 b -> wrap64 (decimal_from a d) = wrap64 (decimal_from b d).
Proof.
  induction d as [|c r IH]; intros a b Hab; simpl; [exact Hab|].
  apply IH.
  rewrite <- (wrap64_add_idemp_l (a * 10)), <- (wrap64_add_idemp_l (b * 10)).
  rewrite <- (wrap64_mul_idemp_l a), <- (wrap64_mul_idemp_l b), Hab.
  reflexivity.
Qed.

Lemma wrapped_from_decimal (d : string) : forall num,
  wrap64 (wrapped_from num d) = wrap64 (decimal_from num d).
Proof.
  induction d as [|c r IH]; intros num; simpl; [reflexivity|].
  rewrite IH. apply decimal_from_congr.
  rewrite wrap64_idemp, wrap64_add_idemp_l. reflexivity.
Qed.

Lemma digits_loop_digits (k : string -> Z -> run Z) (d : string) :
  forall num c rest,
    digits_only d = true -> isdigit c = false ->
    digits_loop k (d ++ String c rest)%string num = k rest (wrapped_from num d).
Proof.
  induction d as [|a r IH]; intros num c rest Hd Hc; simpl in *.
  - rewrite Hc. reflexivity.
  - apply andb_prop in Hd. destruct Hd as [Ha Hr].
    rewrite Ha. apply IH; assumption.
Qed.

Lemma array_loop_brackets (dims : list string) : forall count,
  Forall (fun d => digits_only d = true) dims ->
  exists c, array_loop (brackets dims) count = Ret c
            /\ wrap64 c = wrap64 (count * product (map decimal_value dims)).
Proof.
  induction dims as [|d r IH]; intros count Hd; simpl.
  - exists count. split; [reflexivity|]. f_equal. lia.
  - inversion Hd as [|? ? Hd1 Hd2]; subst.
    rewrite digits_loop_digits by (assumption || reflexivity).
    destruct (IH (wrap64 (count * wrapped_from 0 d)) Hd2) as [c [Hc Hw]].
    exists c. split; [exact Hc|]. rewrite Hw.
    rewrite wrap64_mul_idemp_l.
    rewrite <- Z.mul_assoc, <- wrap64_mul_idemp_r.
    rewrite <- (wrap64_mul_idemp_l (wrapped_from 0 d)), wrapped_from_decimal.
    rewrite wrap64_mul_idemp_l, wrap64_mul_idemp_r.
    reflexivity.
Qed.

Lemma find_first_of_app (c : ascii) (base rest : string) :
  find_first_of c base = None ->
  find_first_of c (base ++ String c rest)%string = Some (String.length base).
Proof.
  induction base as [|a r IH]; simpl; intros H.
  - rewrite Ascii.eqb_refl. reflexivity.
  - destruct (Ascii.eqb a c); [discriminate|].
    destruct (find_first_of c r); [discriminate|].
    rewrite IH by reflexivity. reflexivity.
Qed.

Lemma string_app_nil (base : string) :
  (base ++ EmptyString)%string = base.
Proof. induction base as [|a r IH]; simpl; [|rewrite IH]; reflexivity. Qed.

Lemma string_skip_app (base rest : string) :
  string_skip (String.length base) (base ++ rest)%string = rest.
Proof. induction base as [|a r IH]; simpl; [destruct rest|]; auto. Qed.

Lemma starts_with_app (p : string) : forall s rest,
  starts_with p s = true -> starts_with p (s ++ rest)%string = true.
Proof.
  induction p as [|a p' IH]; intros s rest H; [reflexivity|].
  destruct s as [|b s']; simpl in *; [discriminate|].
  apply andb_prop in H. destruct H as [Hab Hp].
  rewrite Hab, (IH _ _ Hp). reflexivity.
Qed.

Lemma pointer_marked_app (base rest : string) :
  pointer_marked base = true -> pointer_marked (base ++ rest)%string = true.
Proof.
  unfold pointer_marked. intros H.
  apply orb_prop in H. apply orb_true_iff.
  destruct H as [H|H]; [left|right]; apply starts_with_app; exact H.
Qed.

(** C4: the array and pointer markers of a field name are decoded:
    "co[3]" of a 4-byte type takes 12 bytes, "mat[4][4]" takes 64, and
    "*data" takes 8 bytes whatever the length [L] of the declared type. *)
Theorem GetFieldSizeByName_decodes_markers :
  GetFieldSizeByName "co[3]" 4 = Ret 12
  /\ GetFieldSizeByName "mat[4][4]" 4 = Ret 64
  /\ forall L, GetFieldSizeByName "*data" L = Ret 8.
Proof. repeat split. Qed.

(** C7, as stated, fails: "*mtex[18]" begins with '*' and carries an
    array suffix, and its size is 144, not 8; so does the name [f] in
    parentheses behind [paren_star], with the suffix [2]: its size is 16. *)
Lemma pointer_array_size_is_not_8 :
  GetFieldSizeByName "*mtex[18]" 4 = Ret 144
  /\ GetFieldSizeByName (paren_star ++ "f)[2]") 4 = Ret 16
  /\ ~ pointer_width_overrides_array.
Proof.
  split; [reflexivity|]. split; [reflexivity|].
  intros H. specialize (H "*mtex[18]" 4 eq_refl).
  vm_compute in H. discriminate H. discriminate.
Qed.

(** C7, amended: for a pointer-marked name [base[d1]...[dk]] the size is
    8 times the product of the dimensions (modulo 2^64); the length [L] of
    the declared type is ignored, the array suffix is not. *)
Theorem pointer_array_size (base : string) (dims : list string) (L : Z) :
  pointer_marked base = true ->
  find_first_of "[" base = None ->
  Forall (fun d => digits_only d = true) dims ->
  GetFieldSizeByName (base ++ brackets dims) L
  = Ret (wrap64 (8 * product (map decimal_value dims))).
Proof.
  intros Hp Hb Hd. unfold GetFieldSizeByName.
  fold (pointer_marked (base ++ brackets dims)).
  rewrite pointer_marked_app by exact Hp.
  destruct dims as [|d r].
  - simpl. rewrite string_app_nil, Hb. reflexivity.
  - change (brackets (d :: r))
      with (String "[" (d ++ String "]" (brackets r))%string) at 1.
    rewrite find_first_of_app by exact Hb.
    change (brackets (d :: r))
      with (String "[" (d ++ String "]" (brackets r))%string) at 1.
    rewrite string_skip_app.
    change (String "[" (d ++ String "]" (brackets r))%string)
      with (brackets (d :: r)).
    destruct (array_loop_brackets (d :: r) 1 Hd) as [c [Hc Hw]].
    rewrite Hc. unfold bind. f_equal.
    rewrite <- wrap64_mul_idemp_r, Hw, wrap64_mul_idemp_r.
    f_equal. lia.
Qed.

Lemma pointer_array_size_witness :
  GetFieldSizeByName "*mtex[18]" 2 = Ret 144.
Proof.
  apply (pointer_array_size "*mtex" ["18"%string] 2).
  - reflexivity.
  - reflexivity.
  - repeat constructor.
Defined.

(** ** Lookups by name in the catalog *)

Section Catalog.

Variable self : blendExpl.





Lemma struct_loop_skip (S f : string) (pre rest : list StructDesc.t) :
  Forall (named_other self S) pre ->
  struct_loop self S f (pre ++ rest) = struct_loop self S f rest.
Proof.
  induction 1 as [|sd pre' [n [Hn Hne]] _ IH]; simpl; [reflexivity|].
  rewrite Hn. simpl.
  destruct (String.eqb_spec S n) as [->|_]; [contradiction|exact IH].
Qed.

Lemma size_loop_skip (S : string) (pre rest : list StructDesc.t) :
  Forall (named_other self S) pre ->
  size_loop self S (pre ++ rest) = size_loop self S rest.
Proof.
  induction 1 as [|sd pre' [n [Hn Hne]] _ IH]; simpl; [reflexivity|].
  unfold struct_name in Hn.
  destruct (struct_type_info self sd) as [ti|]; simpl in *; [|discriminate].
  rewrite Hn. simpl.
  destruct (String.eqb_spec S n) as [->|_]; [contradiction|exact IH].
Qed.

(** A field name that is not in the struct: the loop runs to the end. *)
Lemma offset_loop_miss (f : string) (fields : list FieldDesc.t)
    (layout : list (string * Z)) :
  field_layout self fields layout ->
  ~ In f (map fst layout) ->
  forall offset, wrap64 offset = offset ->
    offset_loop self f fields offset
    = Ret (wrap64 (offset + total (map snd layout))).
Proof.
  induction 1 as [|fd [n s] fds es [Hn Hs] _ IH]; simpl; intros Hnot off Hoff.
  - rewrite Z.add_0_r, Hoff. reflexivity.
  - simpl in Hn, Hs. rewrite Hn. simpl.
    destruct (String.eqb_spec f n) as [->|_]; [tauto|].
    rewrite Hs. simpl.
    rewrite IH by (try apply wrap64_idemp; tauto).
    rewrite wrap64_add_idemp_l. do 2 f_equal. lia.
Qed.





End Catalog.

(** C10: the struct-size lookup returns 0 when no struct of the catalog
    has type name [S], and otherwise the declared byte length of the first
    struct, in catalog order, whose type name is [S]. *)
Theorem GetStructSizeByName_first_match (self : blendExpl) (S : string)
    (r : option StructDesc.t) :
  first_struct_named self S r ->
  match r with
  | None => GetStructSizeByName self S = Ret 0
  | Some structDesc =>
      exists ti,
        vector_at (m_typeArray self) (StructDesc.typeIndex structDesc) = Ret ti
        /\ GetStructSizeByName self S = Ret (TypeInfo.length ti)
  end.
Proof.
  intros [Hall | pre sd post Hsplit Hpre Hname]; unfold GetStructSizeByName.
  - rewrite <- (app_nil_r (m_structArray self)).
    rewrite size_loop_skip by exact Hall. reflexivity.
  - rewrite Hsplit, size_loop_skip by exact Hpre. simpl.
    unfold struct_name, struct_type_info in *.
    destruct (vector_at (m_typeArray self) (StructDesc.typeIndex sd)) as [ti|];
      simpl in *; [|discriminate].
    exists ti. split; [reflexivity|].
    rewrite Hname. simpl. rewrite String.eqb_refl. reflexivity.
Qed.

Ltac other_names :=
  repeat (constructor;
          [eexists; split; [vm_compute; reflexivity | discriminate]|]);
  try constructor.

Lemma sample_parsed : ParseFile false sample_file = Ret (Parsed, sample).
Proof. vm_compute. reflexivity. Qed.

Lemma sample_no_Nope : first_struct_named sample "Nope" None.
Proof. apply no_struct_named. other_names. Defined.

Lemma sample_Foo : first_struct_named sample "Foo" (Some (sample_struct 0)).
Proof.
  apply (struct_found sample "Foo" [] (sample_struct 0)
           (skipn 1 (m_structArray sample))).
  - reflexivity.
  - constructor.
  - vm_compute. reflexivity.
Defined.

Lemma sample_Bar : first_struct_named sample "Bar" (Some (sample_struct 1)).
Proof.
  apply (struct_found sample "Bar" [sample_struct 0] (sample_struct 1)
           (skipn 2 (m_structArray sample))).
  - reflexivity.
  - other_names.
  - vm_compute. reflexivity.
Defined.

Lemma sample_Foo_layout :
  field_layout sample (StructDesc.fields (sample_struct 0))
    [("a", 4); ("b[2]", 8)].
Proof. repeat constructor. Defined.

Lemma sample_Bar_layout :
  field_layout sample (StructDesc.fields (sample_struct 1))
    [("v", 0); ("x", 4)].
Proof. repeat constructor. Defined.

Lemma GetStructSizeByName_first_match_witness :
  GetStructSizeByName sample "Nope" = Ret 0
  /\ exists ti,
       vector_at (m_typeArray sample) (StructDesc.typeIndex (sample_struct 1))
       = Ret ti
       /\ GetStructSizeByName sample "Bar" = Ret (TypeInfo.length ti).
Proof.
  split.
  - exact (GetStructSizeByName_first_match sample "Nope" None sample_no_Nope).
  - exact (GetStructSizeByName_first_match sample "Bar" _ sample_Bar).
Defined.

(** C1, as stated, fails: the sample catalog has the struct Foo with the
    fields "a" and "b[2]" and no field "zz", and the offset returned for
    "zz" is 12, the size of both fields, not 0. *)
Lemma field_miss_is_not_zero : ~ miss_yields_zero sample.
Proof.
  intros H.
  assert (Hm : lookup_miss sample "Foo" "zz").
  { right. exists (sample_struct 0), [("a", 4); ("b[2]", 8)].
    split; [exact sample_Foo|]. split; [exact sample_Foo_layout|].
    simpl. intros [E|[E|[]]]; discriminate. }
  specialize (H "Foo" "zz" Hm). vm_compute in H. discriminate.
Qed.

(** C1, amended: a lookup miss is a normal return.  When no struct is
    named [S] the offset is 0; when the first struct named [S] has no field
    named [f] the offset is the sum, modulo 2^64, of the effective sizes of
    all its fields. *)
Theorem GetFieldOffset_miss (self : blendExpl) (S f : string)
    (r : option StructDesc.t) :
  first_struct_named self S r ->
  match r with
  | None => GetFieldOffset self S f = Ret 0
  | Some structDesc =>
      forall layout,
        field_layout self (StructDesc.fields structDesc) layout ->
        ~ In f (map fst layout) ->
        GetFieldOffset self S f = Ret (wrap64 (total (map snd layout)))
  end.
Proof.
  intros [Hall | pre sd post Hsplit Hpre Hname]; unfold GetFieldOffset.
  - rewrite <- (app_nil_r (m_structArray self)).
    rewrite struct_loop_skip by exact Hall. reflexivity.
  - intros layout Hlay Hnot.
    rewrite Hsplit, struct_loop_skip by exact Hpre. simpl.
    rewrite Hname. simpl. rewrite String.eqb_refl.
    rewrite (offset_loop_miss self f _ layout Hlay Hnot 0) by reflexivity.
    reflexivity.
Qed.

Lemma GetFieldOffset_miss_witness :
  GetFieldOffset sample "Nope" "a" = Ret 0
  /\ GetFieldOffset sample "Foo" "zz" = Ret 12.
Proof.
  split.
  - exact (GetFieldOffset_miss sample "Nope" "a" None sample_no_Nope).
  - apply (GetFieldOffset_miss sample "Foo" "zz" _ sample_Foo
             [("a", 4); ("b[2]", 8)] sample_Foo_layout).
    simpl. intros [E|[E|[]]]; discriminate.
Defined.

(** The parser checks no layout: the sample parses, with valid indices
    throughout, although its struct Bar is not laid out as a C struct.  Bar
    declares "v" (of the zero-length type void) before "x", both offsets
    are 0, and the sizes of the fields of Bar add up to 4 while its
    declared length is 99. *)
Lemma Bar_offsets_and_sizes :
  ParseFile false sample_file = Ret (Parsed, sample)
  /\ catalog_valid sample = true
  /\ ~ offsets_increase sample
  /\ ~ sizes_add_up sample.
Proof.
  split; [exact sample_parsed|]. split; [reflexivity|]. split.
  - intros H.
    destruct (H "Bar" _ _ sample_Bar sample_Bar_layout 0%nat 1%nat
                ("v", 0) ("x", 4)) as [o1 [o2 [H1 [H2 Hlt]]]];
      [lia | reflexivity | reflexivity |].
    vm_compute in H1, H2. inversion H1. inversion H2. subst. lia.
  - intros H.
    specialize (H "Bar" _ _ sample_Bar sample_Bar_layout).
    vm_compute in H. discriminate.
Qed.


(** ** Address resolution *)

Lemma find_by_old_addr_first (blocks : list FileBlock.t) (addr : Z) :
  forall c, In c blocks -> old_address c = addr ->
  exists i b,
    nth_error blocks i = Some b
    /\ find_by_old_addr blocks addr = Some b
    /\ old_address b = addr
    /\ forall j b', (j < i)%nat -> nth_error blocks j = Some b' ->
                    old_address b' <> addr.
Proof.
  induction blocks as [|x rest IH]; intros c Hin Hc; [destruct Hin|].
  simpl. fold (old_address x).
  destruct (Z.eqb_spec (old_address x) addr) as [Hx|Hx].
  - exists 0%nat, x. repeat split; auto. intros j b' Hj. lia.
  - destruct Hin as [->|Hin]; [contradiction|].
    destruct (IH c Hin Hc) as [i [b [Hi [Hf [Hb Hfirst]]]]].
    exists (S i), b. repeat split; auto.
    intros [|j] b' Hj Hnth; simpl in Hnth.
    + inversion Hnth; subst. exact Hx.
    + apply (Hfirst j); [lia|exact Hnth].
Qed.

(** C5: address 0 resolves to no chunk; the address of a chunk of the
    block array, when it is not 0, resolves to a chunk recorded at that
    address, and that chunk is the first one of the array with the address. *)
Theorem FindFileBlockByOldAddr_first_wins (self : blendExpl) (c : FileBlock.t) :
  In c (m_blockArray self) ->
  old_address c <> 0 ->
  FindFileBlockByOldAddr self 0 = None
  /\ exists i b,
       nth_error (m_blockArray self) i = Some b
       /\ FindFileBlockByOldAddr self (old_address c) = Some b
       /\ old_address b = old_address c
       /\ forall j b', (j < i)%nat ->
                       nth_error (m_blockArray self) j = Some b' ->
                       old_address b' <> old_address c.
Proof.
  intros Hin Hnz. split; [reflexivity|].
  unfold FindFileBlockByOldAddr.
  destruct (Z.eqb_spec (old_address c) 0) as [E|_]; [contradiction|]. simpl.
  apply (find_by_old_addr_first _ _ c Hin eq_refl).
Qed.

(** The second chunk of the collision file: its address resolves to the
    first chunk, which was recorded at the same address. *)
Lemma FindFileBlockByOldAddr_first_wins_witness :
  FindFileBlockByOldAddr collision 0 = None
  /\ exists i b,
       nth_error (m_blockArray collision) i = Some b
       /\ FindFileBlockByOldAddr collision 4096 = Some b
       /\ old_address b = 4096
       /\ forall j b', (j < i)%nat ->
                       nth_error (m_blockArray collision) j = Some b' ->
                       old_address b' <> 4096.
Proof.
  apply (FindFileBlockByOldAddr_first_wins collision
           (nth 1 (m_blockArray collision) (FileBlock.mk
              (FileBlockDesc64.mk [] 0 0 0 0) (MemorySpan.mk 0 0) [] 0))).
  - right. left. reflexivity.
  - discriminate.
Defined.

(** ** The signature record *)

Lemma peek_nth (file : list byte) (p : nat) (b : byte) :
  nth_error file p = Some b -> peek file (Z.of_nat p) = Ret b.
Proof.
  intros H. unfold peek, in_range.
  assert (p < List.length file)%nat by (apply nth_error_Some; congruence).
  rewrite Nat2Z.id, H.
  destruct (Z.leb_spec 0 (Z.of_nat p)); [|lia].
  destruct (Z.ltb_spec (Z.of_nat p) (Z.of_nat (List.length file))); [|lia].
  reflexivity.
Qed.

Lemma read_bytes_firstn (file : list byte) (n : nat) : forall p,
  (p + n <= List.length file)%nat ->
  read_bytes file (Z.of_nat p) n = Ret (firstn n (skipn p file)).
Proof.
  induction n as [|n IH]; intros p Hp; simpl; [reflexivity|].
  destruct (nth_error file p) as [b|] eqn:Hb;
    [|apply nth_error_None in Hb; lia].
  rewrite (peek_nth _ _ _ Hb). simpl.
  replace (Z.of_nat p + 1) with (Z.of_nat (S p)) by lia.
  rewrite IH by lia. simpl.
  rewrite <- (firstn_skipn_middle p file Hb) at 2.
  rewrite skipn_app, skipn_all2 by (rewrite length_firstn; lia).
  rewrite length_firstn.
  replace (p - Nat.min p (List.length file))%nat with 0%nat by lia.
  reflexivity.
Qed.

Lemma bytes_eqb_eq (a b : list byte) : bytes_eqb a b = true <-> a = b.
Proof.
  unfold bytes_eqb. destruct (list_eq_dec Byte.byte_eq_dec a b);
    split; congruence.
Qed.

Lemma Identify_magic (file : list byte) :
  Identify (firstn 7 file) HeaderID 7 = true <-> firstn 7 file = HeaderID.
Proof.
  unfold Identify. rewrite bytes_eqb_eq, firstn_firstn. reflexivity.
Qed.

(** C6, as stated, fails: with the magic in place and the tag 'x' for the
    pointer width, the build with assertions stops on the assertion and
    the build without them parses the (empty) chunk sequence; neither
    reports an unsupported variant. *)
Lemma unrecognised_pointer_tag :
  ParseFile false unrecognised_file = Fault AssertionFailed
  /\ ParseFile true unrecognised_file = Ret (Parsed, Cleanup unrecognised_file)
  /\ ~ rejects_other_variants false
  /\ ~ rejects_other_variants true.
Proof.
  split; [reflexivity|]. split; [reflexivity|].
  split; intros H;
    destruct (H unrecognised_file "x"%byte "v"%byte) as [self Hs];
    try reflexivity; try (left; discriminate);
    try (simpl; lia); vm_compute in Hs; discriminate.
Qed.

(** C6, amended: on a buffer that holds the 12-byte signature, a magic
    other than BLENDER ends the parse with the magic-mismatch error, and,
    with the magic in place, the 4-byte pointer tag '_' or the 8-byte tag
    '-' with a byte-order tag other than 'v' ends it with the distinct
    unsupported-variant error; in both cases no chunk has been stored. *)
Theorem ParseFile_rejects (NDEBUG : bool) (file : list byte) :
  (12 <= List.length file)%nat ->
  m_blockArray (Cleanup file) = []
  /\ (firstn 7 file <> HeaderID ->
      ParseFile NDEBUG file = Ret (FormatError, Cleanup file))
  /\ (forall p e,
        firstn 7 file = HeaderID ->
        nth_error file 7 = Some p ->
        nth_error file 8 = Some e ->
        p = "_"%byte \/ (p = "-"%byte /\ e <> "v"%byte) ->
        ParseFile NDEBUG file = Ret (UnsupportedVariant, Cleanup file)).
Proof.
  intros Hlen. split; [reflexivity|].
  assert (Hne : MemorySpan.Empty (m_fileSpan (Cleanup file)) = false).
  { unfold MemorySpan.Empty, m_fileSpan. simpl.
    destruct (Z.leb_spec (Z.of_nat (List.length file) - 0) 0); [lia|reflexivity]. }
  assert (Hid : read_bytes file 0 7 = Ret (firstn 7 file)).
  { apply (read_bytes_firstn file 7 0). lia. }
  split.
  - intros Hmagic. unfold ParseFile. rewrite Hne.
    unfold ReadTypePtr, MemorySpan.Data, m_fileSpan.
    cbn [MemorySpan.begin_ Cleanup m_file].
    rewrite Hid. cbn [bind].
    destruct (Identify (firstn 7 file) HeaderID 7) eqn:E; [|reflexivity].
    apply Identify_magic in E. contradiction.
  - intros p e Hmagic Hp He Hcase. unfold ParseFile. rewrite Hne.
    unfold ReadTypePtr, MemorySpan.Data, m_fileSpan.
    cbn [MemorySpan.begin_ Cleanup m_file].
    rewrite Hid. cbn [bind].
    apply Identify_magic in Hmagic. rewrite Hmagic. cbn [negb].
    change (0 + 7) with (Z.of_nat 7). change (0 + 8) with (Z.of_nat 8).
    rewrite (peek_nth file 7 p Hp), (peek_nth file 8 e He). cbn [bind].
    destruct Hcase as [->|[-> Hev]].
    + unfold assert_. destruct NDEBUG; reflexivity.
    + destruct (Byte.eqb e "v") eqn:Ee.
      * apply Byte.byte_dec_bl in Ee. contradiction.
      * unfold assert_. destruct NDEBUG; reflexivity.
Qed.

Lemma ParseFile_rejects_witness :
  ParseFile false (bytes_of "NOTABLE-v300")
  = Ret (FormatError, Cleanup (bytes_of "NOTABLE-v300"))
  /\ ParseFile false (bytes_of "BLENDER_v300")
     = Ret (UnsupportedVariant, Cleanup (bytes_of "BLENDER_v300"))
  /\ ParseFile false (bytes_of "BLENDER-V300")
     = Ret (UnsupportedVariant, Cleanup (bytes_of "BLENDER-V300")).
Proof.
  split; [|split].
  - apply (ParseFile_rejects false (bytes_of "NOTABLE-v300")).
    + simpl. lia.
    + discriminate.
  - apply (ParseFile_rejects false (bytes_of "BLENDER_v300")) with "_"%byte "v"%byte.
    + simpl. lia.
    + reflexivity.
    + reflexivity.
    + reflexivity.
    + left. reflexivity.
  - apply (ParseFile_rejects false (bytes_of "BLENDER-V300")) with "-"%byte "V"%byte.
    + simpl. lia.
    + reflexivity.
    + reflexivity.
    + reflexivity.
    + right. split; [reflexivity|discriminate].
Defined.

(** ** The chunk loop *)

Ltac bind_inv H :=
  repeat (apply bind_Ret_inv in H;
          let x := fresh "x" in
          let E := fresh "E" in
          destruct H as [x [E H]];
          try match type of x with
              | (_ * _)%type => destruct x
              end).

Lemma ParseSDNA_keeps_blocks (NDEBUG : bool) (self self' : blendExpl)
    (block : Z) (blockSpan : MemorySpan.t) :
  ParseSDNA NDEBUG self block blockSpan = Ret self' ->
  m_blockArray self' = m_blockArray self /\ m_file self' = m_file self.
Proof.
  unfold ParseSDNA. cbv beta iota zeta delta [ReadTypePtr].
  intros H. bind_inv H. inversion H. split; reflexivity.
Qed.

Lemma Identify_codes_differ (code a b : list byte) :
  a <> b -> List.length a = 4%nat -> List.length b = 4%nat ->
  Identify code a 4 = true -> Identify code b 4 = false.
Proof.
  unfold Identify. intros Hab Ha Hb H.
  apply bytes_eqb_eq in H.
  destruct (bytes_eqb (firstn 4 code) (firstn 4 b)) eqn:E; [|reflexivity].
  apply bytes_eqb_eq in E. exfalso. apply Hab.
  rewrite <- (firstn_all a), <- (firstn_all b), Ha, Hb. congruence.
Qed.

Lemma m_blockArray_set (self : blendExpl) (v : list FileBlock.t) :
  m_blockArray (set_blockArray self v) = v.
Proof. reflexivity. Qed.

(** What a turn of the loop does, by the tag of the header at the cursor. *)
Lemma parse_block_cases (NDEBUG : bool) (self : blendExpl)
    (ms : MemorySpan.t) (pid : Z) (t : turn) :
  parse_block NDEBUG self ms pid = Ret t ->
  exists desc,
    read_desc (m_file self) (MemorySpan.begin_ ms) = Ret desc
    /\ let block := block_at desc ms in
       let blocks := m_blockArray self ++ [block] in
       (is_data block = true /\ is_end_mark block = false
        /\ exists blocks',
             add_child blocks pid block = Ret blocks'
             /\ t = Continue (set_blockArray self blocks')
                      (cursor_after desc ms) pid)
       \/ (is_data block = false /\ is_end_mark block = false
           /\ exists self',
                m_blockArray self' = blocks
                /\ m_file self' = m_file self
                /\ t = Continue self' (cursor_after desc ms)
                         (wrap64 (Z.of_nat (List.length blocks) - 1)))
       \/ (is_data block = false /\ is_end_mark block = true
           /\ t = Break (set_blockArray self blocks)).
Proof.
  unfold parse_block. cbv beta iota zeta delta [ReadTypePtr].
  unfold MemorySpan.Data, m_fileSpan.
  cbn [MemorySpan.begin_ MemorySpan.Advance].
  intros H. apply bind_Ret_inv in H. destruct H as [desc [Hd H]].
  exists desc. split; [exact Hd|].
  unfold is_data, is_end_mark, block_at, cursor_after. cbn [FileBlock.desc].
  unfold MemorySpan.Advance at 2. cbn [MemorySpan.begin_ MemorySpan.end_].
  replace (FileBlockDesc64.sizeof * 1) with FileBlockDesc64.sizeof in H by lia.
  replace (MemorySpan.begin_ ms - 0) with (MemorySpan.begin_ ms) in H by lia.
  destruct (Identify (FileBlockDesc64.code desc) BlockDATA 4) eqn:Edata.
  - left. split; [reflexivity|]. split.
    { apply (Identify_codes_differ _ BlockDATA EOBMark); auto; discriminate. }
    bind_inv H. inversion H. subst. exists x0. split; [exact E0|reflexivity].
  - right.
    destruct (Identify (FileBlockDesc64.code desc) BlockSDNA 4) eqn:Esdna.
    + left. split; [reflexivity|]. split.
      { apply (Identify_codes_differ _ BlockSDNA EOBMark); auto; discriminate. }
      bind_inv H. inversion H. subst.
      apply ParseSDNA_keeps_blocks in E. destruct E as [Eb Ef].
      exists x. rewrite Eb. repeat split; auto.
    + destruct (Identify (FileBlockDesc64.code desc) EOBMark 4) eqn:Eend.
      * right. inversion H. auto.
      * left. split; [reflexivity|]. split; [reflexivity|].
        inversion H.
        exists (set_blockArray self (m_blockArray self ++ [block_at desc ms])).
        repeat split.
Qed.

(** The rule of the loop: what holds before the loop, and is kept by every
    turn that continues, gives [Post] at each of its two exits. *)
Lemma parse_loop_rule (NDEBUG : bool)
    (Inv : blendExpl -> MemorySpan.t -> Z -> Prop) (Post : blendExpl -> Prop) :
  (forall self ms pid,
     Inv self ms pid -> MemorySpan.Empty ms = true -> Post self) ->
  (forall self ms pid t,
     Inv self ms pid -> MemorySpan.Empty ms = false ->
     parse_block NDEBUG self ms pid = Ret t ->
     match t with
     | Continue self' ms' pid' => Inv self' ms' pid'
     | Break self' => Post self'
     end) ->
  forall fuel self ms pid final,
    Inv self ms pid ->
    parse_loop NDEBUG fuel self ms pid = Ret final ->
    Post final.
Proof.
  intros Hexit Hturn.
  induction fuel as [|fuel IH]; intros self ms pid final Hinv H; simpl in H;
    [discriminate|].
  destruct (MemorySpan.Empty ms) eqn:Eempty.
  - inversion H; subst. eapply Hexit; eassumption.
  - apply bind_Ret_inv in H. destruct H as [t [Ht H]].
    specialize (Hturn self ms pid t Hinv Eempty Ht).
    destruct t as [self' ms' pid'|self'].
    + exact (IH _ _ _ _ Hturn H).
    + inversion H; subst. exact Hturn.
Qed.

Lemma ParseFile_Parsed_inv (NDEBUG : bool) (file : list byte)
    (self : blendExpl) :
  ParseFile NDEBUG file = Ret (Parsed, self) ->
  parse_loop NDEBUG (S (List.length file)) (Cleanup file)
    (MemorySpan.mk 12 (Z.of_nat (List.length file))) size_max = Ret self.
Proof.
  unfold ParseFile. cbv beta iota zeta delta [ReadTypePtr].
  unfold MemorySpan.Data, MemorySpan.Advance, m_fileSpan.
  cbn [MemorySpan.begin_ MemorySpan.end_ Cleanup m_file].
  destruct (MemorySpan.Empty _); [discriminate|].
  intros H. apply bind_Ret_inv in H. destruct H as [id [_ H]].
  destruct (negb (Identify id HeaderID 7)); [discriminate|].
  apply bind_Ret_inv in H. destruct H as [p [_ H]].
  apply bind_Ret_inv in H. destruct H as [u [_ H]].
  apply bind_Ret_inv in H. destruct H as [e [_ H]].
  destruct (Byte.eqb p "_"); [discriminate|].
  destruct (Byte.eqb e "v"); [|discriminate].
  apply bind_Ret_inv in H. destruct H as [v [_ H]].
  apply bind_Ret_inv in H. destruct H as [s [Hs H]].
  inversion H; subst. exact Hs.
Qed.

Lemma vector_at_nth {A : Type} (v : list A) (i : Z) (a : A) :
  vector_at v i = Ret a ->
  exists n, i = Z.of_nat n /\ nth_error v n = Some a.
Proof.
  unfold vector_at, in_range. intros H.
  destruct (Z.leb_spec 0 i); simpl in H; [|discriminate].
  destruct (Z.ltb_spec i (Z.of_nat (List.length v))); [|discriminate].
  exists (Z.to_nat i). split; [lia|].
  destruct (nth_error v (Z.to_nat i)); inversion H; reflexivity.
Qed.

Lemma vector_set_nth {A : Type} (v : list A) (n : nat) (a b : A) :
  nth_error v n = Some b ->
  vector_set v (Z.of_nat n) a = list_set v n a.
Proof.
  intros H. unfold vector_set, in_range.
  assert (n < List.length v)%nat by (apply nth_error_Some; congruence).
  destruct (Z.leb_spec 0 (Z.of_nat n)); [|lia].
  destruct (Z.ltb_spec (Z.of_nat n) (Z.of_nat (List.length v))); [|lia].
  simpl. rewrite Nat2Z.id. reflexivity.
Qed.

Lemma add_child_inv (blocks blocks' : list FileBlock.t) (pid : Z)
    (block : FileBlock.t) :
  add_child blocks pid block = Ret blocks' ->
  exists n parent,
    pid = Z.of_nat n
    /\ nth_error blocks n = Some parent
    /\ blocks' =
       list_set blocks n
         (FileBlock.mk (FileBlock.desc parent) (FileBlock.data parent)
            (FileBlock.childBlocks parent ++ [block])
            (FileBlock.fileOffset parent)).
Proof.
  unfold add_child. intros H.
  apply bind_Ret_inv in H. destruct H as [parent [Hp H]].
  destruct (vector_at_nth _ _ _ Hp) as [n [-> Hn]].
  exists n, parent. repeat split; auto.
  inversion H. apply (vector_set_nth _ _ _ _ Hn).
Qed.

Lemma list_set_Forall {A : Type} (P : A -> Prop) (l : list A) :
  Forall P l -> forall i a, P a -> Forall P (list_set l i a).
Proof.
  induction 1 as [|x l Hx Hl IH]; intros i a Ha; [destruct i; constructor|].
  destruct i; simpl; constructor; auto.
Qed.

Lemma list_set_middle {A : Type} (l1 l2 : list A) (x y : A) :
  list_set (l1 ++ x :: l2) (List.length l1) y = l1 ++ y :: l2.
Proof. induction l1 as [|a l1 IH]; simpl; [|rewrite IH]; reflexivity. Qed.

Lemma end_mark_is_last (blocks : list FileBlock.t) (e : FileBlock.t) :
  Forall (fun b => is_end_mark b = false) blocks ->
  forall i b, nth_error (blocks ++ [e]) i = Some b -> is_end_mark b = true ->
              S i = List.length (blocks ++ [e]).
Proof.
  intros Hall i b Hi Hb. rewrite length_app. simpl.
  destruct (Nat.lt_ge_cases i (List.length blocks)) as [Hlt|Hge].
  - rewrite nth_error_app1 in Hi by exact Hlt.
    rewrite Forall_forall in Hall.
    rewrite (Hall b) in Hb; [discriminate|].
    eapply nth_error_In; exact Hi.
  - assert (i < List.length (blocks ++ [e]))%nat
      by (apply nth_error_Some; congruence).
    rewrite length_app in H. simpl in H. lia.
Qed.

(** Until the loop ends, no stored chunk carries the end mark; when it
    ends, an end mark can only be the chunk stored last. *)
Lemma parse_loop_end_mark (NDEBUG : bool) :
  forall fuel self ms pid final,
    Forall (fun b => is_end_mark b = false) (m_blockArray self) ->
    parse_loop NDEBUG fuel self ms pid = Ret final ->
    forall i b,
      nth_error (m_blockArray final) i = Some b -> is_end_mark b = true ->
      S i = List.length (m_blockArray final).
Proof.
  apply (parse_loop_rule NDEBUG
           (fun self _ _ =>
              Forall (fun b => is_end_mark b = false) (m_blockArray self))
           (fun final =>
              forall i b,
                nth_error (m_blockArray final) i = Some b ->
                is_end_mark b = true ->
                S i = List.length (m_blockArray final))).
  - intros self ms pid Hall _ i b Hi Hb.
    rewrite Forall_forall in Hall.
    rewrite (Hall b) in Hb; [discriminate|]. eapply nth_error_In; exact Hi.
  - intros self ms pid t Hall _ Ht.
    apply parse_block_cases in Ht. destruct Ht as [desc [_ Hcases]].
    cbv zeta in Hcases.
    assert (Hall' : forall e, is_end_mark e = false ->
              Forall (fun b => is_end_mark b = false) (m_blockArray self ++ [e])).
    { intros e He. apply Forall_app. split; [exact Hall|]. repeat constructor.
      exact He. }
    destruct Hcases as [[_ [He [blocks' [Hadd ->]]]]
                       |[[_ [He [self' [Hb [_ ->]]]]]|[_ [He ->]]]].
    + rewrite m_blockArray_set.
      apply add_child_inv in Hadd.
      destruct Hadd as [n [parent [_ [Hn ->]]]].
      apply list_set_Forall; [apply Hall'; exact He|].
      specialize (Hall' _ He). rewrite Forall_forall in Hall'.
      apply (Hall' parent). eapply nth_error_In; exact Hn.
    + rewrite Hb. apply Hall'; exact He.
    + rewrite m_blockArray_set. intros i b.
      apply end_mark_is_last; exact Hall.
Qed.

(** C9: the loop stops at a chunk whose tag is the end mark: when the
    header at the cursor carries it, the loop returns normally with that
    chunk stored as the last one, whatever follows in the buffer; and in
    every parsed container a chunk with the end mark is the last chunk. *)
Theorem parse_stops_at_end_mark (NDEBUG : bool) :
  (forall fuel self memoryStream parentId desc,
     MemorySpan.Empty memoryStream = false ->
     read_desc (m_file self) (MemorySpan.begin_ memoryStream) = Ret desc ->
     Identify (FileBlockDesc64.code desc) EOBMark 4 = true ->
     parse_loop NDEBUG (S fuel) self memoryStream parentId
     = Ret (set_blockArray self
              (m_blockArray self ++ [block_at desc memoryStream])))
  /\ (forall file self,
        ParseFile NDEBUG file = Ret (Parsed, self) ->
        forall i b,
          nth_error (m_blockArray self) i = Some b ->
          is_end_mark b = true ->
          S i = List.length (m_blockArray self)).
Proof.
  split.
  - intros fuel self ms pid desc Hne Hd Hend.
    simpl. rewrite Hne.
    unfold parse_block. cbv beta iota zeta delta [ReadTypePtr].
    unfold MemorySpan.Data, m_fileSpan.
    cbn [MemorySpan.begin_ MemorySpan.Advance].
    rewrite Hd. cbn [bind].
    rewrite (Identify_codes_differ _ EOBMark BlockDATA), 
            (Identify_codes_differ _ EOBMark BlockSDNA), Hend;
      auto; try discriminate.
    unfold block_at.
    replace (FileBlockDesc64.sizeof * 1) with FileBlockDesc64.sizeof by lia.
    replace (MemorySpan.begin_ ms - 0) with (MemorySpan.begin_ ms) by lia.
    reflexivity.
  - intros file self H. apply ParseFile_Parsed_inv in H.
    apply (parse_loop_end_mark NDEBUG _ (Cleanup file) _ _ _ (Forall_nil _) H).
Qed.

(** A loop that finds the end mark at its cursor returns with that one
    chunk, although 9 bytes that are no header follow; and the sample,
    which ends with the end mark and 14 more bytes, parses with the end
    mark as its last chunk. *)
Lemma parse_stops_at_end_mark_witness :
  parse_loop false 1 (Cleanup end_file) end_cursor size_max
  = Ret (set_blockArray (Cleanup end_file) [block_at end_desc end_cursor])
  /\ (exists b, nth_error (m_blockArray sample) 10 = Some b
                /\ is_end_mark b = true)
  /\ 11%nat = List.length (m_blockArray sample).
Proof.
  split; [|split].
  - apply (proj1 (parse_stops_at_end_mark false) 0%nat (Cleanup end_file)
             end_cursor size_max end_desc); reflexivity.
  - eexists. split; reflexivity.
  - eapply (proj2 (parse_stops_at_end_mark false) sample_file sample).
    + exact sample_parsed.
    + reflexivity.
    + reflexivity.
Defined.

(** ** Grouping of the generic chunks *)

Lemma byte_code_nonneg (b : byte) : 0 <= byte_code b.
Proof. unfold byte_code. lia. Qed.

Lemma le_value_nonneg (bs : list byte) : 0 <= le_value bs.
Proof.
  induction bs as [|b r IH]; cbn [le_value]; [lia|].
  pose proof (byte_code_nonneg b). lia.
Qed.

Lemma read_desc_size_nonneg (file : list byte) (p : Z)
    (desc : FileBlockDesc64.t) :
  read_desc file p = Ret desc -> 0 <= FileBlockDesc64.size desc.
Proof.
  unfold read_desc. intros H. bind_inv H.
  inversion H; subst. cbn [FileBlockDesc64.size].
  unfold read_uint in E0. bind_inv E0. inversion E0; subst.
  apply le_value_nonneg.
Qed.

Lemma Align4_forward (s : MemorySpan.t) :
  MemorySpan.begin_ s <= MemorySpan.begin_ (MemorySpan.Align4 s)
  /\ MemorySpan.end_ (MemorySpan.Align4 s) = MemorySpan.end_ s.
Proof.
  unfold MemorySpan.Align4.
  change 3 with (Z.ones 2). rewrite Z.land_ones by lia.
  pose proof (Z.mod_pos_bound (MemorySpan.begin_ s) (2 ^ 2) eq_refl).
  destruct (negb _); unfold MemorySpan.Advance;
    cbn [MemorySpan.begin_ MemorySpan.end_]; lia.
Qed.

Lemma cursor_after_forward (desc : FileBlockDesc64.t) (ms : MemorySpan.t) :
  0 <= FileBlockDesc64.size desc ->
  MemorySpan.begin_ ms + 24 <= MemorySpan.begin_ (cursor_after desc ms)
  /\ MemorySpan.end_ (cursor_after desc ms) = MemorySpan.end_ ms.
Proof.
  intros Hs. unfold cursor_after.
  destruct (Align4_forward
              (MemorySpan.Advance
                 (MemorySpan.Advance ms FileBlockDesc64.sizeof)
                 (FileBlockDesc64.size desc))) as [Hb He].
  rewrite He. simpl in *. unfold FileBlockDesc64.sizeof in *. lia.
Qed.

Lemma flat_map_group_snoc (owners : list FileBlock.t) (o : FileBlock.t) :
  flat_map group (owners ++ [o])
  = flat_map group owners ++ o :: FileBlock.childBlocks o.
Proof. rewrite flat_map_app. simpl. rewrite app_nil_r. reflexivity. Qed.

Lemma sorted_snoc (l : list Z) (y : Z) :
  StronglySorted Z.lt l -> Forall (fun x => x < y) l ->
  StronglySorted Z.lt (l ++ [y]).
Proof.
  induction 1 as [|a l Hl IH Ha]; intros Hy; simpl.
  - repeat constructor.
  - inversion Hy; subst. constructor; [auto|].
    apply Forall_app. split; [exact Ha|]. repeat constructor. assumption.
Qed.

Lemma map_list_set_same {A B : Type} (f : A -> B) (l : list A) :
  forall n a b, nth_error l n = Some b -> f a = f b ->
                map f (list_set l n a) = map f l.
Proof.
  induction l as [|x l IH]; intros [|n] a b Hn Hf; simpl in *;
    try discriminate.
  - inversion Hn; subst. rewrite Hf. reflexivity.
  - rewrite (IH n a b Hn Hf). reflexivity.
Qed.

Lemma Forall_list_set_same {A B : Type} (f : A -> B) (P : B -> Prop)
    (l : list A) :
  forall n a b, nth_error l n = Some b -> f a = f b ->
                Forall (fun x => P (f x)) l ->
                Forall (fun x => P (f x)) (list_set l n a).
Proof.
  intros n a b Hn Hf Hall. apply list_set_Forall; [exact Hall|].
  rewrite Hf. rewrite Forall_forall in Hall. apply Hall.
  eapply nth_error_In; exact Hn.
Qed.

Lemma Forall_lt_weaken (blocks : list FileBlock.t) (a b : Z) :
  a <= b ->
  Forall (fun x => FileBlock.fileOffset x < a) blocks ->
  Forall (fun x => FileBlock.fileOffset x < b) blocks.
Proof.
  intros Hab H. eapply Forall_impl; [|exact H]. simpl. intros; lia.
Qed.

(** One more chunk, read at the cursor, keeps the offsets in order. *)
Lemma offsets_snoc (blocks : list FileBlock.t) (desc : FileBlockDesc64.t)
    (ms : MemorySpan.t) :
  Forall (fun b => FileBlock.fileOffset b < MemorySpan.begin_ ms) blocks ->
  StronglySorted Z.lt (map FileBlock.fileOffset blocks) ->
  StronglySorted Z.lt
    (map FileBlock.fileOffset (blocks ++ [block_at desc ms])).
Proof.
  intros Hlt Hs. rewrite map_app. simpl.
  apply sorted_snoc; [exact Hs|].
  apply Forall_map. exact Hlt.
Qed.

Lemma parse_block_keeps_invariant (NDEBUG : bool) (file : list byte)
    (self : blendExpl) (ms : MemorySpan.t) (pid : Z) (t : turn) :
  Z.of_nat (List.length file) < 2 ^ 64 ->
  loop_invariant file self ms pid ->
  MemorySpan.Empty ms = false ->
  parse_block NDEBUG self ms pid = Ret t ->
  match t with
  | Continue self' ms' pid' => loop_invariant file self' ms' pid'
  | Break self' => exists owners, grouped (m_blockArray self') owners
  end.
Proof.
  intros Hfile [Hf [Hend [Hcount [Hbelow [owners [[Hblocks [Hown Hsort]] Hlast]]]]]]
         Hne Ht.
  apply parse_block_cases in Ht. destruct Ht as [desc [Hd Hcases]].
  cbv zeta in Hcases.
  pose proof (read_desc_size_nonneg _ _ _ Hd) as Hsize.
  destruct (cursor_after_forward desc ms Hsize) as [Hfwd Hend'].
  assert (Hlen : Z.of_nat (List.length (m_blockArray self ++ [block_at desc ms]))
                 = Z.of_nat (List.length (m_blockArray self)) + 1)
    by (rewrite length_app; simpl; lia).
  assert (Hroom : MemorySpan.begin_ ms < Z.of_nat (List.length file)).
  { unfold MemorySpan.Empty in Hne. rewrite Hend in Hne.
    destruct (Z.leb_spec (Z.of_nat (List.length file) - MemorySpan.begin_ ms) 0);
      [discriminate|lia]. }
  assert (Hsort' := offsets_snoc _ desc ms Hbelow Hsort).
  assert (Hbelow' : Forall
            (fun b => FileBlock.fileOffset b
                      < MemorySpan.begin_ (cursor_after desc ms))
            (m_blockArray self ++ [block_at desc ms])).
  { apply Forall_app. split.
    - eapply Forall_lt_weaken; [|exact Hbelow]. lia.
    - repeat constructor. simpl. lia. }
  (* a chunk that is no generic data becomes the next owner *)
  assert (Hnew : is_data (block_at desc ms) = false ->
            grouped (m_blockArray self ++ [block_at desc ms])
              (owners ++ [block_at desc ms])
            /\ last_owner (owners ++ [block_at desc ms])
                 (wrap64 (Z.of_nat
                    (List.length (m_blockArray self ++ [block_at desc ms])) - 1))).
  { intros Hnd. split; [split; [|split]|].
    - rewrite flat_map_group_snoc, <- Hblocks. reflexivity.
    - apply Forall_app. split; [exact Hown|].
      repeat constructor. exact Hnd.
    - exact Hsort'.
    - right. exists owners, (block_at desc ms). split; [reflexivity|].
      rewrite <- Hblocks, Hlen, wrap64_small; lia. }
  destruct Hcases as [[Hdata [_ [blocks' [Hadd ->]]]]
                     |[[Hnd [_ [self' [Hb [Hf' ->]]]]]|[Hnd [_ ->]]]].
  - (* generic data: appended to the group of the last owner *)
    apply add_child_inv in Hadd. destruct Hadd as [n [parent [Hpid [Hn ->]]]].
    set (parent' := FileBlock.mk (FileBlock.desc parent) (FileBlock.data parent)
                      (FileBlock.childBlocks parent ++ [block_at desc ms])
                      (FileBlock.fileOffset parent)).
    assert (Hoff : map FileBlock.fileOffset
                     (list_set (m_blockArray self ++ [block_at desc ms]) n parent')
                   = map FileBlock.fileOffset
                       (m_blockArray self ++ [block_at desc ms]))
      by (apply (map_list_set_same _ _ n parent' parent Hn); reflexivity).
    split; [exact Hf|]. split; [congruence|].
    rewrite m_blockArray_set.
    split; [|split].
    + assert (List.length (list_set (m_blockArray self ++ [block_at desc ms]) n parent')
              = List.length (m_blockArray self ++ [block_at desc ms])) as ->.
      { rewrite <- (length_map FileBlock.fileOffset), Hoff, length_map.
        reflexivity. }
      lia.
    + apply (Forall_list_set_same FileBlock.fileOffset
               (fun o => o < MemorySpan.begin_ (cursor_after desc ms))
               _ n parent' parent Hn); [reflexivity|exact Hbelow'].
    + destruct Hlast as [[-> ->]|[init [o [-> ->]]]].
      * (* no owner yet: [at] finds nothing *)
        simpl in Hblocks. rewrite Hblocks in Hn. simpl in Hn.
        assert (n = 0%nat) by (destruct n as [|[|n]]; [reflexivity| |];
                               simpl in Hn; discriminate).
        subst n. vm_compute in Hpid. discriminate.
      * apply Nat2Z.inj in Hpid. subst n.
        rewrite flat_map_group_snoc in Hblocks.
        rewrite Hblocks, <- app_assoc in Hn. simpl in Hn.
        rewrite nth_error_app2, Nat.sub_diag in Hn by lia.
        simpl in Hn. inversion Hn; subst parent. clear Hn.
        exists (init ++ [parent']). split; [split; [|split]|].
        -- rewrite flat_map_group_snoc. rewrite Hblocks, <- app_assoc. simpl.
           rewrite list_set_middle. subst parent'. simpl.
           reflexivity.
        -- apply Forall_app in Hown. destruct Hown as [Hinit Ho].
           inversion Ho as [|? ? [Hod Hoc] _]; subst.
           apply Forall_app. split; [exact Hinit|].
           repeat constructor; [exact Hod|]. subst parent'. simpl.
           apply Forall_app. split; [exact Hoc|].
           repeat constructor. exact Hdata.
        -- rewrite Hoff. exact Hsort'.
        -- right. exists init, parent'. split; reflexivity.
  - (* the schema chunk or any other owner *)
    destruct (Hnew Hnd) as [Hg Hl].
    split; [congruence|]. split; [congruence|]. rewrite Hb.
    split; [lia|]. split; [exact Hbelow'|].
    exists (owners ++ [block_at desc ms]). split; assumption.
  - (* the end mark *)
    rewrite m_blockArray_set.
    exists (owners ++ [block_at desc ms]). apply (Hnew Hnd).
Qed.

Lemma NoDup_app_disjoint {A : Type} (l1 l2 : list A) (a : A) :
  NoDup (l1 ++ l2) -> In a l1 -> In a l2 -> False.
Proof.
  induction l1 as [|x l1 IH]; simpl; intros Hnd H1 H2; [exact H1|].
  inversion Hnd as [|? ? Hx Hnd']; subst.
  destruct H1 as [->|H1].
  - apply Hx. apply in_or_app. right. exact H2.
  - exact (IH Hnd' H1 H2).
Qed.

Lemma sorted_offsets_NoDup (blocks : list FileBlock.t) :
  StronglySorted Z.lt (map FileBlock.fileOffset blocks) -> NoDup blocks.
Proof.
  intros H. apply (NoDup_map_inv FileBlock.fileOffset).
  induction H as [|a l _ IH Ha]; constructor; [|exact IH].
  intros Hin. rewrite Forall_forall in Ha. specialize (Ha a Hin). lia.
Qed.

Lemma has_children_is_owner (owners : list FileBlock.t) (o c : FileBlock.t) :
  Forall is_owner owners ->
  In o (flat_map group owners) -> In c (FileBlock.childBlocks o) ->
  In o owners.
Proof.
  intros Hown Hin Hc. apply in_flat_map in Hin.
  destruct Hin as [o' [Ho' [->|Hchild]]]; [exact Ho'|].
  rewrite Forall_forall in Hown. destruct (Hown o' Ho') as [_ Hch].
  rewrite Forall_forall in Hch. destruct (Hch o Hchild) as [_ Hnil].
  rewrite Hnil in Hc. destruct Hc.
Qed.

Lemma child_in_groups (owners : list FileBlock.t) (o c : FileBlock.t) :
  In o owners -> In c (FileBlock.childBlocks o) ->
  In c (flat_map group owners).
Proof.
  intros Ho Hc. apply in_flat_map. exists o. split; [exact Ho|].
  right. exact Hc.
Qed.

(** In a block array made of groups without repetition, a generic chunk
    lies in the children list of the nearest chunk before it that is no
    generic data, and in no other children list. *)
Lemma grouped_nearest_owner (owners : list FileBlock.t) :
  Forall is_owner owners ->
  NoDup (flat_map group owners) ->
  forall i c,
    nth_error (flat_map group owners) i = Some c ->
    is_data c = true ->
    exists p o,
      (p < i)%nat
      /\ nth_error (flat_map group owners) p = Some o
      /\ is_data o = false
      /\ (forall k b, (p < k < i)%nat ->
                      nth_error (flat_map group owners) k = Some b ->
                      is_data b = true)
      /\ In c (FileBlock.childBlocks o)
      /\ forall o', In o' (flat_map group owners) ->
                    In c (FileBlock.childBlocks o') -> o' = o.
Proof.
  induction owners as [|o rest IH]; intros Hown Hnd i c Hi Hc.
  - destruct i; discriminate.
  - inversion Hown as [|? ? [Hod Hoc] Hrest]; subst.
    change (flat_map group (o :: rest))
      with (o :: (FileBlock.childBlocks o ++ flat_map group rest)) in *.
    inversion Hnd as [|? ? Ho_notin Hnd']; subst.
    assert (Hnd_rest := NoDup_app_remove_l _ _ Hnd').
    destruct i as [|i]; simpl in Hi.
    { inversion Hi; subst. congruence. }
    destruct (Nat.lt_ge_cases i (List.length (FileBlock.childBlocks o)))
      as [Hlt|Hge].
    + (* a child of [o] *)
      rewrite nth_error_app1 in Hi by exact Hlt.
      assert (Hin : In c (FileBlock.childBlocks o))
        by (eapply nth_error_In; exact Hi).
      exists 0%nat, o. split; [lia|]. split; [reflexivity|].
      split; [exact Hod|]. split; [|split; [exact Hin|]].
      * intros [|k] b Hk Hb; [lia|]. simpl in Hb.
        rewrite nth_error_app1 in Hb by lia.
        rewrite Forall_forall in Hoc.
        apply (Hoc b). eapply nth_error_In; exact Hb.
      * intros o' [->|Ho'] Hco'; [reflexivity|]. exfalso.
        apply in_app_or in Ho'. destruct Ho' as [Ho'|Ho'].
        -- rewrite Forall_forall in Hoc. destruct (Hoc o' Ho') as [_ Hnil].
           rewrite Hnil in Hco'. exact Hco'.
        -- apply (NoDup_app_disjoint _ _ c Hnd' Hin).
           apply (child_in_groups rest o' c); [|exact Hco'].
           apply (has_children_is_owner rest o' c Hrest Ho' Hco').
    + (* a chunk of a later group *)
      rewrite nth_error_app2 in Hi by exact Hge.
      destruct (IH Hrest Hnd_rest _ c Hi Hc)
        as [p [o1 [Hp [Hnth [Ho1 [Hbetween [Hin Huniq]]]]]]].
      exists (S (List.length (FileBlock.childBlocks o) + p)), o1.
      split; [lia|]. split.
      { simpl. rewrite nth_error_app2 by lia.
        rewrite Nat.add_comm, Nat.add_sub. exact Hnth. }
      split; [exact Ho1|]. split; [|split; [exact Hin|]].
      * intros [|k] b Hk Hb; [lia|]. simpl in Hb.
        rewrite nth_error_app2 in Hb by lia.
        apply (Hbetween (k - List.length (FileBlock.childBlocks o))%nat b);
          [lia|exact Hb].
      * intros o' [->|Ho'] Hco'.
        -- exfalso. apply (NoDup_app_disjoint _ _ c Hnd' Hco').
           eapply nth_error_In; exact Hi.
        -- apply in_app_or in Ho'. destruct Ho' as [Ho'|Ho'].
           ++ exfalso. rewrite Forall_forall in Hoc.
              destruct (Hoc o' Ho') as [_ Hnil].
              rewrite Hnil in Hco'. exact Hco'.
           ++ apply (Huniq o' Ho' Hco').
Qed.

(** C2, as stated, fails: the sample parses, and the chunk at index 1 of
    its top-level sequence carries the generic data tag. *)
Lemma top_level_holds_data_chunks :
  ParseFile false sample_file = Ret (Parsed, sample)
  /\ (exists b, nth_error (m_blockArray sample) 1 = Some b
                /\ is_data b = true)
  /\ ~ top_level_has_no_data sample.
Proof.
  split; [exact sample_parsed|]. split.
  - eexists. split; reflexivity.
  - intros H. unfold top_level_has_no_data in H.
    rewrite Forall_forall in H.
    specialize (H (nth 1 (m_blockArray sample)
                     (nth 0 (m_blockArray sample) (block_at
                        (FileBlockDesc64.mk [] 0 0 0 0) (MemorySpan.mk 0 0))))).
    vm_compute in H. discriminate H. right. left. reflexivity.
Qed.

(** C2, amended: in every parsed container the top-level sequence is in
    file order and holds all the chunks: each chunk that is no generic data
    is followed by the generic chunks of its children list.  A generic
    chunk therefore lies in exactly one children list, that of the nearest
    chunk before it that is no generic data. *)
Theorem ParseFile_groups_data_chunks (NDEBUG : bool) (file : list byte)
    (self : blendExpl) :
  Z.of_nat (List.length file) < 2 ^ 64 ->
  ParseFile NDEBUG file = Ret (Parsed, self) ->
  (exists owners, grouped (m_blockArray self) owners)
  /\ forall i c,
       nth_error (m_blockArray self) i = Some c ->
       is_data c = true ->
       exists p o,
         (p < i)%nat
         /\ nth_error (m_blockArray self) p = Some o
         /\ is_data o = false
         /\ (forall k b, (p < k < i)%nat ->
                         nth_error (m_blockArray self) k = Some b ->
                         is_data b = true)
         /\ In c (FileBlock.childBlocks o)
         /\ forall o', In o' (m_blockArray self) ->
                       In c (FileBlock.childBlocks o') -> o' = o.
Proof.
  intros Hfile H. apply ParseFile_Parsed_inv in H.
  assert (Hg : exists owners, grouped (m_blockArray self) owners).
  { refine (parse_loop_rule NDEBUG (loop_invariant file)
              (fun final => exists owners, grouped (m_blockArray final) owners)
              _ _ _ _ _ _ _ _ H).
    - intros s ms pid [_ [_ [_ [_ [owners [Hg _]]]]]] _. exists owners. exact Hg.
    - intros s ms pid t. apply parse_block_keeps_invariant. exact Hfile.
    - split; [reflexivity|]. split; [reflexivity|]. split; [simpl; lia|].
      split; [constructor|]. exists []. split.
      + split; [reflexivity|]. split; constructor.
      + left. split; reflexivity. }
  split; [exact Hg|].
  destruct Hg as [owners [Hblocks [Hown Hsort]]].
  rewrite Hblocks in *.
  apply grouped_nearest_owner; [exact Hown|].
  apply sorted_offsets_NoDup. exact Hsort.
Qed.

Lemma ParseFile_groups_data_chunks_witness :
  (exists owners, grouped (m_blockArray sample) owners)
  /\ forall i c,
       nth_error (m_blockArray sample) i = Some c ->
       is_data c = true ->
       exists p o,
         (p < i)%nat
         /\ nth_error (m_blockArray sample) p = Some o
         /\ is_data o = false
         /\ (forall k b, (p < k < i)%nat ->
                         nth_error (m_blockArray sample) k = Some b ->
                         is_data b = true)
         /\ In c (FileBlock.childBlocks o)
         /\ forall o', In o' (m_blockArray sample) ->
                       In c (FileBlock.childBlocks o') -> o' = o.
Proof.
  apply (ParseFile_groups_data_chunks false sample_file sample).
  - vm_compute. reflexivity.
  - exact sample_parsed.
Defined.

(** ** Navigation along next pointers *)

Lemma next_chain_null (NDEBUG : bool) (self : blendExpl) (k : Traversal)
    (chunks : list FileBlock.t) :
  next_chain NDEBUG self k 0 chunks -> chunks = [].
Proof.
  inversion 1 as [|addr c next rest [Hfind _] _]; subst; [reflexivity|].
  discriminate Hfind.
Qed.

Lemma next_chain_nonnull (NDEBUG : bool) (self : blendExpl) (k : Traversal)
    (addr : Z) (chunks : list FileBlock.t) :
  next_chain NDEBUG self k addr chunks -> addr <> 0 -> chunks <> [].
Proof. inversion 1; subst; [contradiction|discriminate]. Qed.

(** C8: along a chain of next pointers through N chunks, the last of
    which holds the null address, the traversal returns (for every bound
    of at least N on the depth of its recursion, and at least 1) after it
    has visited exactly those N chunks, in the order of the chain. *)
Theorem Navigate_visits_chain (NDEBUG : bool) (self : blendExpl)
    (k : Traversal) (addr : Z) (chunks : list FileBlock.t) :
  next_chain NDEBUG self k addr chunks ->
  forall fuel,
    (Nat.max 1 (List.length chunks) <= fuel)%nat ->
    Navigate NDEBUG self k fuel addr = Ret chunks.
Proof.
  induction 1 as [|addr c next rest [Hfind [Hassert [Hvisit Hnext]]] Hrest IH];
    intros fuel Hfuel.
  - destruct fuel as [|fuel]; [simpl in Hfuel; lia|].
    destruct k; reflexivity.
  - destruct fuel as [|fuel]; [simpl in Hfuel; lia|].
    assert (Hgo : negb (next =? 0) = true ->
                  Navigate NDEBUG self k fuel next = Ret rest).
    { intros Hnz. apply IH.
      destruct (Z.eqb_spec next 0) as [E|E]; [discriminate|].
      pose proof (next_chain_nonnull _ _ _ _ _ Hrest E).
      destruct rest; [contradiction|]. simpl in *. lia. }
    assert (Hstop : negb (next =? 0) = false -> rest = []).
    { intros Hz. destruct (Z.eqb_spec next 0) as [E|E]; [|discriminate].
      subst next. eapply next_chain_null; exact Hrest. }
    unfold next_of in Hnext.
    apply bind_Ret_inv in Hnext. destruct Hnext as [nextOffset [Hoff Hread]].
    destruct k; simpl in *.
    + rewrite Hfind, Hassert. cbn [bind].
      unfold visit_collection_object in Hvisit.
      apply bind_Ret_inv in Hvisit. destruct Hvisit as [obOffset [Hob Hvisit]].
      apply bind_Ret_inv in Hvisit. destruct Hvisit as [obAddr [Hobr Hvisit]].
      apply bind_Ret_inv in Hvisit. destruct Hvisit as [name [Hname _]].
      rewrite Hob. cbn [bind]. rewrite Hobr. cbn [bind].
      rewrite Hname. cbn [bind].
      rewrite Hoff. cbn [bind]. rewrite Hread. cbn [bind].
      destruct (negb (next =? 0)).
      * rewrite Hgo by reflexivity. reflexivity.
      * rewrite Hstop by reflexivity. reflexivity.
    + rewrite Hfind, Hassert. cbn [bind].
      rewrite Hvisit. cbn [bind].
      rewrite Hoff. cbn [bind]. rewrite Hread. cbn [bind].
      destruct (negb (next =? 0)).
      * rewrite Hgo by reflexivity. reflexivity.
      * rewrite Hstop by reflexivity. reflexivity.
Qed.

Ltac sample_link := repeat split; vm_compute; reflexivity.

(** The chain of two CollectionObject chunks and the chain of three pose
    channels of the sample. *)
Lemma Navigate_visits_chain_witness :
  Navigate false sample CollectionObjects 2 8192
  = Ret [sample_block 2; sample_block 3]
  /\ Navigate false sample PoseChannels 3 20480
     = Ret [sample_block 5; sample_block 6; sample_block 7].
Proof.
  split.
  - apply (Navigate_visits_chain false sample CollectionObjects 8192
             [sample_block 2; sample_block 3]); [|simpl; lia].
    apply (chain_link _ _ _ 8192 _ 12288); [sample_link|].
    apply (chain_link _ _ _ 12288 _ 0); [sample_link|].
    apply chain_end.
  - apply (Navigate_visits_chain false sample PoseChannels 20480
             [sample_block 5; sample_block 6; sample_block 7]); [|simpl; lia].
    apply (chain_link _ _ _ 20480 _ 24576); [sample_link|].
    apply (chain_link _ _ _ 24576 _ 28672); [sample_link|].
    apply (chain_link _ _ _ 28672 _ 0); [sample_link|].
    apply chain_end.
Defined.

Lemma next_chain_functional (NDEBUG : bool) (self : blendExpl) (k : Traversal)
    (addr : Z) (l1 : list FileBlock.t) :
  next_chain NDEBUG self k addr l1 ->
  forall l2, next_chain NDEBUG self k addr l2 -> l1 = l2.
Proof.
  induction 1 as [|addr c next rest [Hfind [_ [_ Hnext]]] _ IH]; intros l2 H2.
  - symmetry. eapply next_chain_null; exact H2.
  - inversion H2 as [|addr' c' next' rest' [Hfind' [_ [_ Hnext']]] Hrest'];
      subst; [discriminate Hfind|].
    rewrite Hfind in Hfind'. inversion Hfind'; subst c'.
    rewrite Hnext in Hnext'. inversion Hnext'; subst next'.
    f_equal. apply IH. exact Hrest'.
Qed.

Lemma next_chain_from (NDEBUG : bool) (self : blendExpl) (k : Traversal)
    (l1 : list FileBlock.t) : forall addr c l2,
  next_chain NDEBUG self k addr (l1 ++ c :: l2) ->
  exists next, next_of self k c = Ret next
               /\ next_chain NDEBUG self k next l2.
Proof.
  induction l1 as [|x l1 IH]; intros addr c l2 H; simpl in H;
    inversion H as [|a c' next rest [_ [_ [_ Hnext]]] Hrest]; subst.
  - exists next. split; assumption.
  - eapply IH; exact Hrest.
Qed.

(** A chain that reaches the null address visits no chunk twice: the
    chains of the theorem above are acyclic. *)
Lemma next_chain_acyclic (NDEBUG : bool) (self : blendExpl) (k : Traversal)
    (addr : Z) (chunks : list FileBlock.t) :
  next_chain NDEBUG self k addr chunks -> NoDup chunks.
Proof.
  induction 1 as [|addr c next rest [_ [_ [_ Hnext]]] Hrest IH];
    constructor; [|exact IH].
  intros Hin. apply in_split in Hin. destruct Hin as [l1 [l2 ->]].
  destruct (next_chain_from _ _ _ _ _ _ _ Hrest) as [next' [Hnext' Hl2]].
  rewrite Hnext in Hnext'. inversion Hnext'; subst next'.
  pose proof (next_chain_functional _ _ _ _ _ Hrest _ Hl2) as E.
  apply (f_equal (@List.length _)) in E.
  rewrite length_app in E. simpl in E. lia.
Qed.

(** ** The bound of the loop model is never reached *)

Lemma fuel_free_bind {A B : Type} (m : run A) (k : A -> run B) :
  fuel_free m -> (forall a, m = Ret a -> fuel_free (k a)) ->
  fuel_free (bind m k).
Proof.
  unfold fuel_free. destruct m as [a|f]; simpl; intros Hm Hk.
  - apply Hk. reflexivity.
  - intros E. apply Hm. inversion E. reflexivity.
Qed.

Lemma fuel_free_Ret {A : Type} (a : A) : fuel_free (Ret a).
Proof. discriminate. Qed.

Lemma fuel_free_peek (file : list byte) (p : Z) : fuel_free (peek file p).
Proof.
  unfold peek. destruct (in_range _ _); [|discriminate].
  destruct (nth_error _ _); discriminate.
Qed.

Lemma fuel_free_read_bytes (file : list byte) (n : nat) :
  forall p, fuel_free (read_bytes file p n).
Proof.
  induction n as [|n IH]; intros p; simpl; [apply fuel_free_Ret|].
  apply fuel_free_bind; [apply fuel_free_peek|]. intros b _.
  apply fuel_free_bind; [apply IH|]. intros bs _. apply fuel_free_Ret.
Qed.

Lemma fuel_free_read_uint (file : list byte) (p : Z) (n : nat) :
  fuel_free (read_uint file p n).
Proof.
  apply fuel_free_bind; [apply fuel_free_read_bytes|].
  intros; apply fuel_free_Ret.
Qed.

Lemma fuel_free_vector_at {A : Type} (v : list A) (i : Z) :
  fuel_free (vector_at v i).
Proof.
  unfold vector_at. destruct (in_range _ _); [|discriminate].
  destruct (nth_error _ _); discriminate.
Qed.

Lemma fuel_free_assert (NDEBUG : bool) (cond : run bool) :
  fuel_free cond -> fuel_free (assert_ NDEBUG cond).
Proof.
  intros H. unfold assert_. destruct NDEBUG; [apply fuel_free_Ret|].
  apply fuel_free_bind; [exact H|]. intros [|] _; discriminate.
Qed.

Lemma fuel_free_IdentifyAt (file : list byte) (p : Z) (id : string) :
  fuel_free (IdentifyAt file p id).
Proof.
  apply fuel_free_bind; [apply fuel_free_read_bytes|].
  intros; apply fuel_free_Ret.
Qed.

Ltac fuel_step :=
  first
    [ apply fuel_free_Ret
    | apply fuel_free_peek
    | apply fuel_free_read_bytes
    | apply fuel_free_read_uint
    | apply fuel_free_vector_at
    | apply fuel_free_IdentifyAt
    | apply fuel_free_assert
    | apply fuel_free_bind; [|intros ? _]
    | match goal with
      | |- fuel_free (match ?x with _ => _ end) => destruct x
      end ].

Lemma fuel_free_scan_to_nul (file : list byte) (n : nat) :
  forall span, fuel_free (scan_to_nul file n span).
Proof.
  induction n as [|n IH]; intros span; simpl; repeat fuel_step. apply IH.
Qed.

Lemma fuel_free_read_strings {A : Type} (entry : MemorySpan.t -> A)
    (file : list byte) (count : nat) :
  forall span array, fuel_free (read_strings entry file count span array).
Proof.
  induction count as [|n IH]; intros span array; simpl; repeat fuel_step;
    first [apply fuel_free_scan_to_nul | apply IH].
Qed.

Lemma fuel_free_read_lengths (file : list byte) (count : nat) :
  forall i span types, fuel_free (read_lengths file count i span types).
Proof.
  induction count as [|n IH]; intros i span types; simpl; repeat fuel_step.
  apply IH.
Qed.

Lemma fuel_free_read_fields (file : list byte) (n : nat) :
  forall span fields, fuel_free (read_fields file n span fields).
Proof.
  induction n as [|n IH]; intros span fields; simpl; repeat fuel_step.
  apply IH.
Qed.

Lemma fuel_free_read_structs (file : list byte) (count : nat) :
  forall i span structs, fuel_free (read_structs file count i span structs).
Proof.
  induction count as [|n IH]; intros i span structs; simpl; repeat fuel_step;
    first [apply fuel_free_read_fields | apply IH].
Qed.

Ltac fuel_auto :=
  repeat first
    [ fuel_step
    | apply fuel_free_read_strings
    | apply fuel_free_read_lengths
    | apply fuel_free_read_structs ].

Lemma fuel_free_ParseSDNA (NDEBUG : bool) (self : blendExpl) (block : Z)
    (span : MemorySpan.t) :
  fuel_free (ParseSDNA NDEBUG self block span).
Proof.
  unfold ParseSDNA. cbv beta iota zeta delta [ReadTypePtr]. fuel_auto.
Qed.

Lemma fuel_free_parse_block (NDEBUG : bool) (self : blendExpl)
    (ms : MemorySpan.t) (pid : Z) :
  fuel_free (parse_block NDEBUG self ms pid).
Proof.
  unfold parse_block, add_child, read_desc.
  cbv beta iota zeta delta [ReadTypePtr].
  repeat first [apply fuel_free_ParseSDNA | fuel_step].
Qed.

Lemma fuel_free_parse_loop (NDEBUG : bool) :
  forall fuel self ms pid,
    Z.max 0 (MemorySpan.end_ ms - MemorySpan.begin_ ms) < Z.of_nat fuel ->
    fuel_free (parse_loop NDEBUG fuel self ms pid).
Proof.
  induction fuel as [|fuel IH]; intros self ms pid Hfuel; [lia|].
  simpl. destruct (MemorySpan.Empty ms) eqn:Hne; [apply fuel_free_Ret|].
  apply fuel_free_bind; [apply fuel_free_parse_block|].
  intros t Ht. destruct t as [self' ms' pid'|self']; [|apply fuel_free_Ret].
  apply IH.
  apply parse_block_cases in Ht. destruct Ht as [desc [Hd Hcases]].
  cbv zeta in Hcases.
  pose proof (read_desc_size_nonneg _ _ _ Hd) as Hsize.
  destruct (cursor_after_forward desc ms Hsize) as [Hfwd Hend].
  assert (ms' = cursor_after desc ms) as ->.
  { destruct Hcases as [[_ [_ [b [_ E]]]]|[[_ [_ [s [_ [_ E]]]]]|[_ [_ E]]]];
      inversion E; reflexivity. }
  unfold MemorySpan.Empty in Hne.
  destruct (Z.leb_spec (MemorySpan.end_ ms - MemorySpan.begin_ ms) 0);
    [discriminate|].
  lia.
Qed.

(** The model of [ParseFile] is total in the sense of the source: it never
    stops because the bound on the turns of its loop was too small. *)
Lemma ParseFile_fuel_suffices (NDEBUG : bool) (file : list byte) :
  fuel_free (ParseFile NDEBUG file).
Proof.
  unfold ParseFile. cbv beta iota zeta delta [ReadTypePtr].
  repeat fuel_step.
  apply fuel_free_parse_loop.
  unfold MemorySpan.Advance, m_fileSpan, MemorySpan.Data.
  cbn [MemorySpan.begin_ MemorySpan.end_ Cleanup m_file]. lia.
Qed.

(** * Further properties of the code *)

(** ** MemorySpan *)

(** X1: [Align4] leaves the cursor on a multiple of 4, moves it forward by
    less than 4 bytes, never touches the end, and does nothing on a cursor
    that is aligned already. *)
Theorem Align4_aligns (s : MemorySpan.t) :
  MemorySpan.begin_ (MemorySpan.Align4 s) mod 4 = 0
  /\ MemorySpan.begin_ s <= MemorySpan.begin_ (MemorySpan.Align4 s)
     < MemorySpan.begin_ s + 4
  /\ MemorySpan.end_ (MemorySpan.Align4 s) = MemorySpan.end_ s
  /\ MemorySpan.Align4 (MemorySpan.Align4 s) = MemorySpan.Align4 s.
Proof.
  assert (Hland : forall x, Z.land x 3 = x mod 4).
  { intros x. change 3 with (Z.ones 2). rewrite Z.land_ones by lia.
    reflexivity. }
  assert (H : MemorySpan.begin_ (MemorySpan.Align4 s) mod 4 = 0
              /\ MemorySpan.begin_ s <= MemorySpan.begin_ (MemorySpan.Align4 s)
                 < MemorySpan.begin_ s + 4
              /\ MemorySpan.end_ (MemorySpan.Align4 s) = MemorySpan.end_ s).
  { unfold MemorySpan.Align4. rewrite Hland.
    pose proof (Z.mod_pos_bound (MemorySpan.begin_ s) 4 eq_refl) as Hm.
    destruct (Z.eqb_spec (MemorySpan.begin_ s mod 4) 0) as [E|E];
      cbn [negb]; unfold MemorySpan.Advance;
      cbn [MemorySpan.begin_ MemorySpan.end_].
    - repeat split; try lia.
    - repeat split; try lia.
      pose proof (Z.div_mod (MemorySpan.begin_ s) 4 ltac:(lia)) as Hdm.
      replace (MemorySpan.begin_ s + (4 - MemorySpan.begin_ s mod 4))
        with ((MemorySpan.begin_ s / 4 + 1) * 4) by lia.
      apply Z.mod_mul. lia. }
  destruct H as [H1 [H2 H3]]. repeat split; try assumption; try lia.
  unfold MemorySpan.Align4 at 1. rewrite Hland, H1. reflexivity.
Qed.

(** ** GetFieldSizeByName, further *)

Lemma string_app_assoc (a b c : string) :
  ((a ++ b) ++ c)%string = (a ++ (b ++ c))%string.
Proof. induction a as [|x a IH]; simpl; [|rewrite IH]; reflexivity. Qed.

(** The pointer marker is decided by the first two characters: text that is
    empty or begins with a bracket, appended to a name, does not change it. *)
Lemma pointer_marked_bracket (base rest : string) :
  rest = EmptyString \/ (exists r, rest = String "[" r) ->
  pointer_marked (base ++ rest)%string = pointer_marked base.
Proof.
  intros Hrest. unfold pointer_marked, paren_star.
  destruct base as [|a [|b r]]; cbn [starts_with append].
  - destruct Hrest as [->|[r ->]]; reflexivity.
  - destruct Hrest as [->|[r ->]]; cbn [starts_with]; reflexivity.
  - reflexivity.
Qed.

Lemma brackets_shape (dims : list string) :
  brackets dims = EmptyString \/ exists r, brackets dims = String "[" r.
Proof. destruct dims as [|d r]; [left|right; eexists]; reflexivity. Qed.

(** The size of a name with well-formed dimensions, marked or not. *)
Lemma GetFieldSizeByName_brackets (base : string) (dims : list string) (L : Z) :
  find_first_of "[" base = None ->
  Forall (fun d => digits_only d = true) dims ->
  GetFieldSizeByName (base ++ brackets dims) L
  = Ret (wrap64 ((if pointer_marked base then 8 else L)
                 * product (map decimal_value dims))).
Proof.
  intros Hb Hd. unfold GetFieldSizeByName.
  fold (pointer_marked (base ++ brackets dims)).
  rewrite (pointer_marked_bracket base _ (brackets_shape dims)).
  destruct dims as [|d r].
  - simpl. rewrite string_app_nil, Hb. reflexivity.
  - change (brackets (d :: r))
      with (String "[" (d ++ String "]" (brackets r))%string) at 1.
    rewrite find_first_of_app by exact Hb.
    change (brackets (d :: r))
      with (String "[" (d ++ String "]" (brackets r))%string) at 1.
    rewrite string_skip_app.
    change (String "[" (d ++ String "]" (brackets r))%string)
      with (brackets (d :: r)).
    destruct (array_loop_brackets (d :: r) 1 Hd) as [c [Hc Hw]].
    rewrite Hc. unfold bind. f_equal.
    rewrite <- wrap64_mul_idemp_r, Hw, wrap64_mul_idemp_r.
    f_equal. lia.
Qed.

(** X2: a name without the pointer marker, followed by the dimensions
    [d1]...[dk], takes the declared length times d1*...*dk bytes, modulo
    2^64; without dimensions it takes the declared length. *)
Theorem array_size (base : string) (dims : list string) (L : Z) :
  pointer_marked base = false ->
  find_first_of "[" base = None ->
  Forall (fun d => digits_only d = true) dims ->
  GetFieldSizeByName (base ++ brackets dims) L
  = Ret (wrap64 (L * product (map decimal_value dims))).
Proof.
  intros Hp Hb Hd. rewrite GetFieldSizeByName_brackets by assumption.
  rewrite Hp. reflexivity.
Qed.

Lemma array_size_witness :
  GetFieldSizeByName "arm_mat[4][4]" 4 = Ret 64.
Proof.
  apply (array_size "arm_mat" ["4"%string; "4"%string] 4).
  - reflexivity.
  - reflexivity.
  - repeat constructor.
Defined.

Lemma array_loop_stuck (dims : list string) : forall count c tail,
  Forall (fun d => digits_only d = true) dims ->
  Ascii.eqb c "[" = false -> Ascii.eqb c zero = false ->
  array_loop (brackets dims ++ String c tail) count = Fault Diverges.
Proof.
  induction dims as [|d r IH]; intros count c tail Hd Hc1 Hc2.
  - simpl. rewrite Hc1, Hc2. reflexivity.
  - inversion Hd as [|? ? Hd1 Hd2]; subst.
    change ((brackets (d :: r) ++ String c tail)%string)
      with (String "[" ((d ++ String "]" (brackets r)) ++ String c tail)%string).
    rewrite string_app_assoc. cbn [append array_loop]. rewrite Ascii.eqb_refl.
    rewrite digits_loop_digits by (assumption || reflexivity).
    apply IH; assumption.
Qed.

(** X3: text behind the last dimension, unless it begins with a bracket
    or a NUL, leaves the loop of [GetFieldSizeByName] with nothing to
    advance over: the call never returns. *)
Theorem text_after_dimension_diverges (base d : string) (dims : list string)
    (c : ascii) (tail : string) (L : Z) :
  find_first_of "[" base = None ->
  Forall (fun d => digits_only d = true) (d :: dims) ->
  c <> "["%char -> c <> zero ->
  GetFieldSizeByName (base ++ (brackets (d :: dims) ++ String c tail)) L
  = Fault Diverges.
Proof.
  intros Hb Hd Hc1 Hc2. unfold GetFieldSizeByName.
  change ((brackets (d :: dims) ++ String c tail)%string)
    with (String "[" ((d ++ String "]" (brackets dims)) ++ String c tail)%string).
  rewrite find_first_of_app by exact Hb.
  rewrite string_skip_app.
  change (String "[" ((d ++ String "]" (brackets dims)) ++ String c tail)%string)
    with ((brackets (d :: dims) ++ String c tail)%string).
  rewrite array_loop_stuck; [reflexivity|exact Hd| |].
  - destruct (Ascii.eqb_spec c "["); [contradiction|reflexivity].
  - destruct (Ascii.eqb_spec c zero); [contradiction|reflexivity].
Qed.

Lemma text_after_dimension_diverges_witness :
  GetFieldSizeByName "vec[3]x" 4 = Fault Diverges.
Proof.
  apply (text_after_dimension_diverges "vec" "3" [] "x" "" 4).
  - reflexivity.
  - repeat constructor.
  - discriminate.
  - discriminate.
Defined.

(** X4: the closing bracket is never looked at: whatever character that
    is no digit ends the digits of a dimension, the size is the one of the
    name with the bracket in its place. *)
Theorem closing_bracket_unchecked (base d : string) (x : ascii)
    (rest : string) (L : Z) :
  find_first_of "[" base = None ->
  digits_only d = true ->
  isdigit x = false ->
  GetFieldSizeByName (base ++ String "[" (d ++ String x rest)) L
  = GetFieldSizeByName (base ++ String "[" (d ++ String "]" rest)) L.
Proof.
  intros Hb Hd Hx. unfold GetFieldSizeByName.
  fold (pointer_marked (base ++ String "[" (d ++ String x rest))).
  fold (pointer_marked (base ++ String "[" (d ++ String "]" rest))).
  rewrite !pointer_marked_bracket by (right; eexists; reflexivity).
  rewrite !find_first_of_app by exact Hb.
  rewrite !string_skip_app. cbn [array_loop]. rewrite Ascii.eqb_refl.
  rewrite !digits_loop_digits by (assumption || reflexivity).
  reflexivity.
Qed.

Lemma closing_bracket_unchecked_witness :
  GetFieldSizeByName "co[3)" 4 = GetFieldSizeByName "co[3]" 4.
Proof.
  apply (closing_bracket_unchecked "co" "3" ")" "" 4); reflexivity.
Defined.

(** ** GetFieldOffset and GetStructSizeByName, further *)

Lemma offset_loop_prefix (self : blendExpl) (f : string)
    (pre : list FieldDesc.t) (layout : list (string * Z))
    (field : FieldDesc.t) (post : list FieldDesc.t) :
  field_layout self pre layout ->
  ~ In f (map fst layout) ->
  field_name self field = Ret f ->
  forall offset, wrap64 offset = offset ->
    offset_loop self f (pre ++ field :: post) offset
    = Ret (wrap64 (offset + total (map snd layout))).
Proof.
  induction 1 as [|fd [n s] fds es [Hn Hs] _ IH]; simpl; intros Hnot Hf off Hoff.
  - rewrite Hf. simpl. rewrite String.eqb_refl, Z.add_0_r, Hoff. reflexivity.
  - simpl in Hn, Hs. rewrite Hn. simpl.
    destruct (String.eqb_spec f n) as [->|_]; [tauto|].
    rewrite Hs. simpl.
    rewrite IH by (try apply wrap64_idemp; tauto).
    rewrite wrap64_add_idemp_l. do 2 f_equal. lia.
Qed.

(** X5: in the first struct named [S], the offset of [f] is the sum,
    modulo 2^64, of the effective sizes of the fields declared before the
    first field named [f]; that field's own size and the fields behind it
    are not looked at. *)
Theorem GetFieldOffset_hit (self : blendExpl) (S f : string)
    (structDesc : StructDesc.t) (pre : list FieldDesc.t)
    (layout : list (string * Z)) (field : FieldDesc.t)
    (post : list FieldDesc.t) :
  first_struct_named self S (Some structDesc) ->
  StructDesc.fields structDesc = pre ++ field :: post ->
  field_layout self pre layout ->
  ~ In f (map fst layout) ->
  field_name self field = Ret f ->
  GetFieldOffset self S f = Ret (wrap64 (total (map snd layout))).
Proof.
  intros Hfirst Hfields Hlay Hnot Hf.
  inversion Hfirst as [|spre sd spost Hsplit Hpre Hname]; subst.
  unfold GetFieldOffset.
  rewrite Hsplit, struct_loop_skip by exact Hpre. simpl.
  rewrite Hname. simpl. rewrite String.eqb_refl, Hfields.
  rewrite (offset_loop_prefix self f pre layout field post Hlay Hnot Hf 0)
    by reflexivity.
  reflexivity.
Qed.

(** In bPoseChannel of the sample, "name[64]" lies behind the two
    pointers "*next" and "*prev". *)
Lemma GetFieldOffset_hit_witness :
  GetFieldOffset sample "bPoseChannel" "name[64]" = Ret 16.
Proof.
  apply (GetFieldOffset_hit sample "bPoseChannel" "name[64]" (sample_struct 4)
           (firstn 2 (StructDesc.fields (sample_struct 4)))
           [("*next", 8); ("*prev", 8)]
           (nth 2 (StructDesc.fields (sample_struct 4)) (FieldDesc.mk 0 0))
           (skipn 3 (StructDesc.fields (sample_struct 4)))).
  - apply (struct_found sample "bPoseChannel"
             (firstn 4 (m_structArray sample)) (sample_struct 4)
             (skipn 5 (m_structArray sample))).
    + reflexivity.
    + other_names.
    + vm_compute. reflexivity.
  - reflexivity.
  - repeat constructor.
  - simpl. intros [E|[E|[]]]; discriminate.
  - vm_compute. reflexivity.
Defined.

(** X6: the lookups validate no index: when the first struct that is not
    passed over as "named otherwise" has a type index outside the type
    table, both lookups end with the out_of_range exception of
    [vector::at], whatever names are asked for. *)
Theorem lookup_throws_on_bad_type_index (self : blendExpl) (S f : string)
    (pre : list StructDesc.t) (structDesc : StructDesc.t)
    (post : list StructDesc.t) :
  m_structArray self = pre ++ structDesc :: post ->
  Forall (named_other self S) pre ->
  in_range (StructDesc.typeIndex structDesc) (List.length (m_typeArray self))
  = false ->
  GetFieldOffset self S f = Fault OutOfRange
  /\ GetStructSizeByName self S = Fault OutOfRange.
Proof.
  intros Hsplit Hpre Hbad.
  unfold GetFieldOffset, GetStructSizeByName.
  rewrite Hsplit, struct_loop_skip, size_loop_skip by exact Hpre. simpl.
  unfold struct_name, struct_type_info, vector_at. rewrite Hbad.
  split; reflexivity.
Qed.

(** The parser accepts the schema with the type index 7; every lookup in
    the catalog it builds then throws. *)
Lemma lookup_throws_on_bad_type_index_witness :
  ParseFile false bad_index_file = Ret (Parsed, bad_index)
  /\ GetFieldOffset bad_index "int" "a" = Fault OutOfRange
  /\ GetStructSizeByName bad_index "int" = Fault OutOfRange.
Proof.
  split; [vm_compute; reflexivity|].
  apply (lookup_throws_on_bad_type_index bad_index "int" "a" []
           (nth 0 (m_structArray bad_index) (StructDesc.mk 0 []))
           []).
  - reflexivity.
  - constructor.
  - reflexivity.
Defined.

(** ** Address and tag lookups, further *)

Lemma find_by_old_addr_None (blocks : list FileBlock.t) (addr : Z) :
  find_by_old_addr blocks addr = None
  <-> Forall (fun b => old_address b <> addr) blocks.
Proof.
  induction blocks as [|x rest IH]; simpl.
  - split; [constructor|reflexivity].
  - fold (old_address x).
    destruct (Z.eqb_spec (old_address x) addr) as [E|E].
    + split; [discriminate|]. intros H. inversion H; subst. contradiction.
    + rewrite IH. split.
      * intros H. constructor; assumption.
      * intros H. inversion H; assumption.
Qed.

Lemma find_by_old_addr_Some (blocks : list FileBlock.t) (addr : Z)
    (b : FileBlock.t) :
  find_by_old_addr blocks addr = Some b -> In b blocks /\ old_address b = addr.
Proof.
  induction blocks as [|x rest IH]; simpl; [discriminate|].
  fold (old_address x).
  destruct (Z.eqb_spec (old_address x) addr) as [E|E]; intros H.
  - inversion H; subst. split; [left; reflexivity|reflexivity].
  - destruct (IH H) as [Hin Hb]. split; [right; exact Hin|exact Hb].
Qed.

(** X7: an address resolves to no chunk exactly when it is 0 or no chunk
    of the block array was recorded at it; and a chunk it resolves to is a
    chunk of the block array recorded at that address, which is not 0. *)
Theorem FindFileBlockByOldAddr_miss (self : blendExpl) (addr : Z) :
  (FindFileBlockByOldAddr self addr = None
   <-> addr = 0
       \/ Forall (fun b => old_address b <> addr) (m_blockArray self))
  /\ forall b, FindFileBlockByOldAddr self addr = Some b ->
               In b (m_blockArray self) /\ old_address b = addr /\ addr <> 0.
Proof.
  unfold FindFileBlockByOldAddr.
  destruct (Z.eqb_spec addr 0) as [E|E]; simpl.
  - split; [split; auto|]. intros b H. discriminate.
  - split.
    + rewrite find_by_old_addr_None. split; [auto|].
      intros [H|H]; [contradiction|exact H].
    + intros b H. apply find_by_old_addr_Some in H. tauto.
Qed.

Lemma find_code_spec (code : list byte) (blocks : list FileBlock.t) :
  forall i,
    match find_code blocks code i with
    | Some r =>
        exists n b,
          r = i + Z.of_nat n
          /\ nth_error blocks n = Some b
          /\ Identify (FileBlockDesc64.code (FileBlock.desc b)) code 4 = true
          /\ forall m b', (m < n)%nat -> nth_error blocks m = Some b' ->
               Identify (FileBlockDesc64.code (FileBlock.desc b')) code 4
               = false
    | None =>
        Forall (fun b =>
                  Identify (FileBlockDesc64.code (FileBlock.desc b)) code 4
                  = false) blocks
    end.
Proof.
  induction blocks as [|x rest IH]; intros i; simpl; [constructor|].
  destruct (Identify (FileBlockDesc64.code (FileBlock.desc x)) code 4) eqn:Ex.
  - exists 0%nat, x. repeat split; auto; [lia|]. intros m b' Hm. lia.
  - specialize (IH (i + 1)).
    destruct (find_code rest code (i + 1)) as [r|].
    + destruct IH as [n [b [Hr [Hn [Hb Hfirst]]]]].
      exists (S n), b. repeat split; auto; [lia|].
      intros [|m] b' Hm Hnth; simpl in Hnth.
      * inversion Hnth; subst. exact Ex.
      * apply (Hfirst m); [lia|exact Hnth].
    + constructor; assumption.
Qed.

(** X8: [FindBlockByCode] returns the least index, at or behind the
    offset given, of a block that carries the tag, and nothing when no
    block from that offset on carries it (in particular for an offset
    behind the last block). *)
Theorem FindBlockByCode_least (self : blendExpl) (code : list byte)
    (offset : Z) :
  0 <= offset ->
  match FindBlockByCode self code offset with
  | Some i =>
      offset <= i
      /\ (exists b,
            nth_error (m_blockArray self) (Z.to_nat i) = Some b
            /\ Identify (FileBlockDesc64.code (FileBlock.desc b)) code 4 = true)
      /\ forall j b, offset <= j < i ->
           nth_error (m_blockArray self) (Z.to_nat j) = Some b ->
           Identify (FileBlockDesc64.code (FileBlock.desc b)) code 4 = false
  | None =>
      forall j b, offset <= j ->
        nth_error (m_blockArray self) (Z.to_nat j) = Some b ->
        Identify (FileBlockDesc64.code (FileBlock.desc b)) code 4 = false
  end.
Proof.
  intros Hoff. unfold FindBlockByCode, in_range.
  destruct (Z.leb_spec 0 offset); [|lia]. simpl.
  destruct (Z.ltb_spec offset (Z.of_nat (List.length (m_blockArray self))))
    as [Hin|Hout].
  - pose proof (find_code_spec code
                  (skipn (Z.to_nat offset) (m_blockArray self)) offset) as Hs.
    destruct (find_code _ code offset) as [r|].
    + destruct Hs as [n [b [-> [Hn [Hb Hfirst]]]]].
      rewrite nth_error_skipn in Hn.
      split; [lia|]. split.
      * exists b. split; [|exact Hb].
        replace (Z.to_nat (offset + Z.of_nat n))
          with (Z.to_nat offset + n)%nat by lia. exact Hn.
      * intros j b' Hj Hnth.
        apply (Hfirst (Z.to_nat j - Z.to_nat offset)%nat); [lia|].
        rewrite nth_error_skipn.
        replace (Z.to_nat offset + (Z.to_nat j - Z.to_nat offset))%nat
          with (Z.to_nat j) by lia. exact Hnth.
    + intros j b Hj Hnth. rewrite Forall_forall in Hs. apply Hs.
      apply (nth_error_In _ (Z.to_nat j - Z.to_nat offset)).
      rewrite nth_error_skipn.
      replace (Z.to_nat offset + (Z.to_nat j - Z.to_nat offset))%nat
        with (Z.to_nat j) by lia. exact Hnth.
  - intros j b Hj Hnth.
    assert (Hlt : (Z.to_nat j < List.length (m_blockArray self))%nat)
      by (apply nth_error_Some; congruence).
    lia.
Qed.

(** Behind the first object of the object sample (index 1), the next
    block with the tag OB is the one at index 3. *)
Lemma FindBlockByCode_least_witness :
  2 <= 3
  /\ (exists b,
        nth_error (m_blockArray objects) (Z.to_nat 3) = Some b
        /\ Identify (FileBlockDesc64.code (FileBlock.desc b)) BlockOB 4 = true)
  /\ forall j b, 2 <= j < 3 ->
       nth_error (m_blockArray objects) (Z.to_nat j) = Some b ->
       Identify (FileBlockDesc64.code (FileBlock.desc b)) BlockOB 4 = false.
Proof.
  apply (FindBlockByCode_least objects BlockOB 2). lia.
Defined.

Lemma find_parent_spec (self : blendExpl) (addr : Z)
    (blocks : list FileBlock.t) :
  forall r, find_parent self blocks addr = Ret r ->
  match r with
  | Some b =>
      exists i off,
        nth_error blocks i = Some b
        /\ Identify (FileBlockDesc64.code (FileBlock.desc b)) BlockOB 4 = true
        /\ GetFieldOffset self "Object" "*data" = Ret off
        /\ read_ptr self b off = Ret addr
        /\ forall j b', (j < i)%nat -> nth_error blocks j = Some b' ->
             Identify (FileBlockDesc64.code (FileBlock.desc b')) BlockOB 4
             = true ->
             read_ptr self b' off <> Ret addr
  | None =>
      forall b, In b blocks ->
        Identify (FileBlockDesc64.code (FileBlock.desc b)) BlockOB 4 = true ->
        exists off p,
          GetFieldOffset self "Object" "*data" = Ret off
          /\ read_ptr self b off = Ret p /\ p <> addr
  end.
Proof.
  induction blocks as [|x rest IH]; intros r H; simpl in H.
  - inversion H; subst. intros b [].
  - destruct (Identify (FileBlockDesc64.code (FileBlock.desc x)) BlockOB 4)
      eqn:Ex; simpl in H.
    + apply bind_Ret_inv in H. destruct H as [off [Hoff H]].
      apply bind_Ret_inv in H. destruct H as [p [Hp H]].
      destruct (Z.eqb_spec p addr) as [E|E].
      * inversion H; subst. exists 0%nat, off.
        repeat split; auto. intros j b' Hj. lia.
      * specialize (IH r H). destruct r as [b|].
        -- destruct IH as [i [off' [Hi [Hb [Hoff' [Hread Hfirst]]]]]].
           exists (S i), off'. repeat split; auto.
           intros [|j] b' Hj Hnth Hob; simpl in Hnth.
           ++ inversion Hnth; subst. rewrite Hoff in Hoff'.
              inversion Hoff'; subst. rewrite Hp. congruence.
           ++ apply (Hfirst j); auto. lia.
        -- intros b [->|Hin] Hob; [|apply IH; assumption].
           exists off, p. auto.
    + specialize (IH r H). destruct r as [b|].
      * destruct IH as [i [off [Hi [Hb [Hoff [Hread Hfirst]]]]]].
        exists (S i), off. repeat split; auto.
        intros [|j] b' Hj Hnth Hob; simpl in Hnth.
        -- inversion Hnth; subst. congruence.
        -- apply (Hfirst j); auto. lia.
      * intros b [->|Hin] Hob; [congruence|apply IH; assumption].
Qed.

(** X9: when [FindParentObject] returns a block, it is the first block
    with the tag OB whose "*data" field of Object holds the address asked
    for; when it returns none, every OB block was read and holds another
    address.  The address 0 is looked up like any other. *)
Theorem FindParentObject_first (self : blendExpl) (addr : Z)
    (r : option FileBlock.t) :
  FindParentObject self addr = Ret r ->
  match r with
  | Some b =>
      exists i off,
        nth_error (m_blockArray self) i = Some b
        /\ Identify (FileBlockDesc64.code (FileBlock.desc b)) BlockOB 4 = true
        /\ GetFieldOffset self "Object" "*data" = Ret off
        /\ read_ptr self b off = Ret addr
        /\ forall j b', (j < i)%nat ->
             nth_error (m_blockArray self) j = Some b' ->
             Identify (FileBlockDesc64.code (FileBlock.desc b')) BlockOB 4
             = true ->
             read_ptr self b' off <> Ret addr
  | None =>
      forall b, In b (m_blockArray self) ->
        Identify (FileBlockDesc64.code (FileBlock.desc b)) BlockOB 4 = true ->
        exists off p,
          GetFieldOffset self "Object" "*data" = Ret off
          /\ read_ptr self b off = Ret p /\ p <> addr
  end.
Proof. apply find_parent_spec. Qed.

(** The armature object of the object sample has no data: it is what the
    lookup of the address 0 returns. *)
Lemma FindParentObject_first_witness :
  exists i off,
    nth_error (m_blockArray objects) i
    = Some (nth 3 (m_blockArray objects) (block_at end_desc end_cursor))
    /\ Identify
         (FileBlockDesc64.code
            (FileBlock.desc
               (nth 3 (m_blockArray objects) (block_at end_desc end_cursor))))
         BlockOB 4 = true
    /\ GetFieldOffset objects "Object" "*data" = Ret off
    /\ read_ptr objects
         (nth 3 (m_blockArray objects) (block_at end_desc end_cursor)) off
       = Ret 0
    /\ forall j b', (j < i)%nat ->
         nth_error (m_blockArray objects) j = Some b' ->
         Identify (FileBlockDesc64.code (FileBlock.desc b')) BlockOB 4 = true ->
         read_ptr objects b' off <> Ret 0.
Proof.
  apply (FindParentObject_first objects 0
           (Some (nth 3 (m_blockArray objects) (block_at end_desc end_cursor)))).
  vm_compute. reflexivity.
Defined.

(** ** Navigation, further *)

(** X10: there is no cycle detection: from an address of a set that the
    next pointers never leave (a cycle, or a chain that runs into one),
    the traversal exhausts every bound on its depth; the recursion of the
    source does not return. *)
Theorem Navigate_cycle_never_returns (NDEBUG : bool) (self : blendExpl)
    (k : Traversal) (cycle : Z -> Prop) :
  closed_under_next NDEBUG self k cycle ->
  forall fuel addr, cycle addr ->
    Navigate NDEBUG self k fuel addr = Fault OutOfFuel.
Proof.
  intros Hclosed. induction fuel as [|fuel IH]; intros addr Hin.
  - destruct k; reflexivity.
  - destruct (Hclosed addr Hin)
      as [c [next [[Hfind [Hassert [Hvisit Hnext]]] Hnext_in]]].
    assert (Hnz : negb (next =? 0) = true).
    { destruct (Z.eqb_spec next 0) as [E|E]; [|reflexivity].
      subst next. destruct (Hclosed 0 Hnext_in) as [c' [n' [[Hf _] _]]].
      discriminate Hf. }
    specialize (IH next Hnext_in).
    unfold next_of in Hnext.
    apply bind_Ret_inv in Hnext. destruct Hnext as [nextOffset [Hoff Hread]].
    destruct k; simpl in *.
    + rewrite Hfind, Hassert. cbn [bind].
      unfold visit_collection_object in Hvisit.
      apply bind_Ret_inv in Hvisit. destruct Hvisit as [obOffset [Hob Hvisit]].
      apply bind_Ret_inv in Hvisit. destruct Hvisit as [obAddr [Hobr Hvisit]].
      apply bind_Ret_inv in Hvisit. destruct Hvisit as [name [Hname _]].
      rewrite Hob. cbn [bind]. rewrite Hobr. cbn [bind].
      rewrite Hname. cbn [bind].
      rewrite Hoff. cbn [bind]. rewrite Hread. cbn [bind].
      rewrite Hnz, IH. reflexivity.
    + rewrite Hfind, Hassert. cbn [bind].
      rewrite Hvisit. cbn [bind].
      rewrite Hoff. cbn [bind]. rewrite Hread. cbn [bind].
      rewrite Hnz, IH. reflexivity.
Qed.

(** The two CollectionObject chunks of the cyclic sample point at each
    other: a depth of 1000 is exhausted like any other. *)
Lemma Navigate_cycle_never_returns_witness :
  Navigate false cyclic CollectionObjects 1000 8192 = Fault OutOfFuel.
Proof.
  apply (Navigate_cycle_never_returns false cyclic CollectionObjects
           (fun a => a = 8192 \/ a = 12288)); [|left; reflexivity].
  intros addr [-> | ->].
  - exists (nth 1 (m_blockArray cyclic) (block_at end_desc end_cursor)), 12288.
    split; [repeat split; vm_compute; reflexivity|right; reflexivity].
  - exists (nth 2 (m_blockArray cyclic) (block_at end_desc end_cursor)), 8192.
    split; [repeat split; vm_compute; reflexivity|left; reflexivity].
Defined.

(** ** ExploreObjectData *)



















(** ** ParseFile, further *)

(** X12: the parse reports "File not found!" for the empty buffer and for
    no other one. *)
Theorem ParseFile_FileNotFound_iff (NDEBUG : bool) (file : list byte) :
  (exists self, ParseFile NDEBUG file = Ret (FileNotFound, self))
  <-> file = [].
Proof.
  split.
  - intros [self H]. destruct file as [|b file]; [reflexivity|]. exfalso.
    unfold ParseFile in H. cbv beta iota zeta delta [ReadTypePtr] in H.
    assert (E : MemorySpan.Empty (m_fileSpan (Cleanup (b :: file))) = false).
    { unfold MemorySpan.Empty, m_fileSpan.
      cbn [MemorySpan.begin_ MemorySpan.end_ Cleanup m_file].
      destruct (Z.leb_spec (Z.of_nat (List.length (b :: file)) - 0) 0);
        [simpl in *; lia|reflexivity]. }
    rewrite E in H.
    apply bind_Ret_inv in H. destruct H as [id [_ H]].
    destruct (negb (Identify id HeaderID 7)); [discriminate|].
    apply bind_Ret_inv in H. destruct H as [p [_ H]].
    apply bind_Ret_inv in H. destruct H as [u [_ H]].
    apply bind_Ret_inv in H. destruct H as [e [_ H]].
    destruct (Byte.eqb p "_"); [discriminate|].
    destruct (Byte.eqb e "v"); [|discriminate].
    apply bind_Ret_inv in H. destruct H as [v [_ H]].
    apply bind_Ret_inv in H. destruct H as [s [_ H]].
    discriminate.
  - intros ->. exists (Cleanup []). reflexivity.
Qed.

Lemma peek_bounds (file : list byte) (p : Z) (b : byte) :
  peek file p = Ret b -> 0 <= p < Z.of_nat (List.length file).
Proof.
  unfold peek, in_range. intros H.
  destruct (Z.leb_spec 0 p); [|discriminate].
  destruct (Z.ltb_spec p (Z.of_nat (List.length file))); [|discriminate].
  lia.
Qed.

Lemma read_bytes_bounds (file : list byte) (n : nat) : forall p bs,
  read_bytes file p (S n) = Ret bs ->
  0 <= p /\ p + Z.of_nat (S n) <= Z.of_nat (List.length file).
Proof.
  induction n as [|n IH]; intros p bs H; cbn [read_bytes] in H;
    apply bind_Ret_inv in H; destruct H as [b [Hb H]];
    apply peek_bounds in Hb.
  - lia.
  - apply bind_Ret_inv in H. destruct H as [bs' [Hbs _]].
    apply IH in Hbs. lia.
Qed.

Lemma read_desc_bounds (file : list byte) (p : Z) (desc : FileBlockDesc64.t) :
  read_desc file p = Ret desc ->
  0 <= p /\ p + FileBlockDesc64.sizeof <= Z.of_nat (List.length file).
Proof.
  unfold read_desc. intros H. bind_inv H.
  apply read_bytes_bounds in E.
  unfold read_uint in E3. apply bind_Ret_inv in E3.
  destruct E3 as [bs [E3 _]]. apply read_bytes_bounds in E3.
  unfold FileBlockDesc64.sizeof. lia.
Qed.

Lemma ParseFile_signature (NDEBUG : bool) (file : list byte) :
  (12 <= List.length file)%nat ->
  firstn 7 file = HeaderID ->
  nth_error file 7 = Some "-"%byte ->
  nth_error file 8 = Some "v"%byte ->
  ParseFile NDEBUG file
  = (self <- parse_loop NDEBUG (S (List.length file)) (Cleanup file)
               (MemorySpan.mk 12 (Z.of_nat (List.length file))) size_max ;;
     Ret (Parsed, self)).
Proof.
  intros Hlen Hmagic Hp He. unfold ParseFile.
  assert (Hne : MemorySpan.Empty (m_fileSpan (Cleanup file)) = false).
  { unfold MemorySpan.Empty, m_fileSpan. simpl.
    destruct (Z.leb_spec (Z.of_nat (List.length file) - 0) 0);
      [lia|reflexivity]. }
  rewrite Hne.
  unfold ReadTypePtr, MemorySpan.Data, MemorySpan.Advance, m_fileSpan.
  cbn [MemorySpan.begin_ MemorySpan.end_ Cleanup m_file].
  assert (Hid : read_bytes file 0 7 = Ret (firstn 7 file))
    by (apply (read_bytes_firstn file 7 0); lia).
  assert (Hv : read_bytes file (0 + 9) 3 = Ret (firstn 3 (skipn 9 file)))
    by (apply (read_bytes_firstn file 3 9); lia).
  rewrite Hid. cbn [bind].
  apply Identify_magic in Hmagic. rewrite Hmagic. cbn [negb].
  change (0 + 7) with (Z.of_nat 7). change (0 + 8) with (Z.of_nat 8).
  rewrite (peek_nth file 7 _ Hp), (peek_nth file 8 _ He). cbn [bind].
  rewrite Hv.
  unfold assert_. destruct NDEBUG; reflexivity.
Qed.

(** X13: a generic data chunk at the head of the chunk sequence has no
    owner: a build with assertions stops on the assertion, a build without
    them ends with the out_of_range exception of [vector::at]. *)
Theorem ParseFile_orphan_data (file : list byte) (desc : FileBlockDesc64.t) :
  firstn 7 file = HeaderID ->
  nth_error file 7 = Some "-"%byte ->
  nth_error file 8 = Some "v"%byte ->
  read_desc file 12 = Ret desc ->
  Identify (FileBlockDesc64.code desc) BlockDATA 4 = true ->
  ParseFile false file = Fault AssertionFailed
  /\ ParseFile true file = Fault OutOfRange.
Proof.
  intros Hmagic Hp He Hd Hdata.
  destruct (read_desc_bounds _ _ _ Hd) as [_ Hb].
  unfold FileBlockDesc64.sizeof in Hb.
  assert (Hne : MemorySpan.Empty
                  (MemorySpan.mk 12 (Z.of_nat (List.length file))) = false).
  { unfold MemorySpan.Empty. simpl.
    destruct (Z.leb_spec (Z.of_nat (List.length file) - 12) 0);
      [lia|reflexivity]. }
  split; rewrite ParseFile_signature by (assumption || lia);
    cbn [parse_loop]; rewrite Hne;
    unfold parse_block; cbv beta iota zeta delta [ReadTypePtr];
    unfold MemorySpan.Data; cbn [MemorySpan.begin_ Cleanup m_file];
    rewrite Hd; cbn [bind]; rewrite Hdata; reflexivity.
Qed.

Lemma ParseFile_orphan_data_witness :
  ParseFile false orphan_file = Fault AssertionFailed
  /\ ParseFile true orphan_file = Fault OutOfRange.
Proof.
  apply (ParseFile_orphan_data orphan_file
           (FileBlockDesc64.mk BlockDATA 4 4096 0 1)); reflexivity.
Defined.

Lemma Align4_begin_mod (s : MemorySpan.t) :
  MemorySpan.begin_ (MemorySpan.Align4 s) mod 4 = 0.
Proof.
  unfold MemorySpan.Align4.
  change 3 with (Z.ones 2). rewrite Z.land_ones by lia.
  change (2 ^ 2) with 4.
  pose proof (Z.mod_pos_bound (MemorySpan.begin_ s) 4 eq_refl) as Hm.
  destruct (Z.eqb_spec (MemorySpan.begin_ s mod 4) 0) as [E|E];
    cbn [negb]; unfold MemorySpan.Advance;
    cbn [MemorySpan.begin_ MemorySpan.end_]; [exact E|].
  pose proof (Z.div_mod (MemorySpan.begin_ s) 4 ltac:(lia)) as Hdm.
  replace (MemorySpan.begin_ s + (4 - MemorySpan.begin_ s mod 4))
    with ((MemorySpan.begin_ s / 4 + 1) * 4) by lia.
  apply Z.mod_mul. lia.
Qed.

Lemma cursor_after_next_offset (desc : FileBlockDesc64.t) (ms : MemorySpan.t) :
  MemorySpan.begin_ (cursor_after desc ms)
  = next_offset (MemorySpan.begin_ ms) (FileBlockDesc64.size desc).
Proof.
  unfold cursor_after, next_offset, MemorySpan.Align4, MemorySpan.Advance.
  cbn [MemorySpan.begin_ MemorySpan.end_].
  destruct (negb _); reflexivity.
Qed.

Lemma chunk_walk_snoc (blocks : list FileBlock.t) (b : FileBlock.t) :
  forall start finish,
    chunk_walk start blocks finish ->
    FileBlock.fileOffset b = finish ->
    chunk_walk start (blocks ++ [b])
      (next_offset finish (FileBlockDesc64.size (FileBlock.desc b))).
Proof.
  induction blocks as [|x rest IH]; intros start finish Hw Hb; simpl in *.
  - subst. split; reflexivity.
  - destruct Hw as [Hx Hw]. split; [exact Hx|]. apply IH; assumption.
Qed.

Lemma chunk_walk_list_set (blocks : list FileBlock.t) :
  forall n a b start finish,
    nth_error blocks n = Some b ->
    FileBlock.fileOffset a = FileBlock.fileOffset b ->
    FileBlock.desc a = FileBlock.desc b ->
    chunk_walk start blocks finish ->
    chunk_walk start (list_set blocks n a) finish.
Proof.
  induction blocks as [|x rest IH]; intros n a b start finish Hn Ho Hd Hw.
  - destruct n; discriminate.
  - destruct n as [|n]; simpl in *.
    + inversion Hn; subst x. rewrite Ho, Hd. exact Hw.
    + destruct Hw as [Hx Hw]. split; [exact Hx|]. eapply IH; eassumption.
Qed.

Lemma parse_block_keeps_layout (NDEBUG : bool) (file : list byte)
    (self : blendExpl) (ms : MemorySpan.t) (pid : Z) (t : turn) :
  layout_invariant file self ms ->
  parse_block NDEBUG self ms pid = Ret t ->
  exists ms', layout_invariant file (turn_state t) ms'
              /\ match t with
                 | Continue _ ms'' _ => ms'' = ms'
                 | Break _ => True
                 end.
Proof.
  intros [Hf [Hend [H12 [Hmod [Hall [Hch Hwalk]]]]]] Ht.
  apply parse_block_cases in Ht. destruct Ht as [desc [Hd Hcases]].
  cbv zeta in Hcases. rewrite Hf in Hd.
  pose proof (read_desc_size_nonneg _ _ _ Hd) as Hsize.
  destruct (read_desc_bounds _ _ _ Hd) as [_ Hroom].
  destruct (cursor_after_forward desc ms Hsize) as [Hfwd Hend'].
  assert (Hblock : block_matches file (block_at desc ms)).
  { unfold block_matches, block_at. cbn [FileBlock.fileOffset FileBlock.desc
                                          FileBlock.data].
    repeat split; assumption. }
  assert (Hall' : Forall (block_matches file)
                    (m_blockArray self ++ [block_at desc ms])).
  { apply Forall_app. split; [exact Hall|].
    constructor; [exact Hblock|constructor]. }
  assert (Hch' : Forall (fun b => Forall (block_matches file)
                                    (FileBlock.childBlocks b))
                   (m_blockArray self ++ [block_at desc ms])).
  { apply Forall_app. split; [exact Hch|]. repeat constructor. }
  assert (Hwalk' : chunk_walk 12 (m_blockArray self ++ [block_at desc ms])
                     (MemorySpan.begin_ (cursor_after desc ms))).
  { rewrite cursor_after_next_offset.
    apply (chunk_walk_snoc _ (block_at desc ms) 12 _ Hwalk). reflexivity. }
  assert (Hcur : 12 <= MemorySpan.begin_ (cursor_after desc ms)
                 /\ MemorySpan.begin_ (cursor_after desc ms) mod 4 = 0).
  { split; [lia|]. unfold cursor_after. apply Align4_begin_mod. }
  exists (cursor_after desc ms).
  destruct Hcases as [[_ [_ [blocks' [Hadd ->]]]]
                     |[[_ [_ [self' [Hb [Hf' ->]]]]]|[_ [_ ->]]]];
    cbn [turn_state].
  - apply add_child_inv in Hadd. destruct Hadd as [n [parent [_ [Hn ->]]]].
    split; [|reflexivity].
    assert (Hpar : block_matches file parent
                   /\ Forall (block_matches file) (FileBlock.childBlocks parent)).
    { rewrite Forall_forall in Hall', Hch'.
      split; [apply Hall'|apply Hch']; eapply nth_error_In; exact Hn. }
    destruct Hpar as [Hpm Hpc].
    split; [exact Hf|]. split; [congruence|]. split; [tauto|]. split; [tauto|].
    rewrite m_blockArray_set. split; [|split].
    + apply list_set_Forall; [exact Hall'|]. exact Hpm.
    + apply list_set_Forall; [exact Hch'|]. cbn [FileBlock.childBlocks].
      apply Forall_app. split; [exact Hpc|].
      constructor; [exact Hblock|constructor].
    + eapply chunk_walk_list_set; [exact Hn|reflexivity|reflexivity|exact Hwalk'].
  - split; [|reflexivity].
    split; [congruence|]. split; [congruence|]. split; [tauto|]. split; [tauto|].
    rewrite Hb. auto.
  - split; [|exact I].
    split; [exact Hf|]. split; [congruence|]. split; [tauto|]. split; [tauto|].
    rewrite m_blockArray_set. auto.
Qed.

Lemma parse_loop_layout (NDEBUG : bool) (file : list byte) :
  forall fuel self ms pid final,
    layout_invariant file self ms ->
    parse_loop NDEBUG fuel self ms pid = Ret final ->
    exists ms', layout_invariant file final ms'.
Proof.
  apply (parse_loop_rule NDEBUG
           (fun self ms _ => layout_invariant file self ms)
           (fun final => exists ms', layout_invariant file final ms')).
  - intros self ms pid Hinv _. exists ms. exact Hinv.
  - intros self ms pid t Hinv _ Ht.
    destruct (parse_block_keeps_layout _ _ _ _ _ _ Hinv Ht) as [ms' [Hinv' Hms]].
    destruct t as [self' ms'' pid'|self']; cbn [turn_state] in Hinv'.
    + subst ms''. exact Hinv'.
    + exists ms'. exact Hinv'.
Qed.

Lemma ParseFile_layout (NDEBUG : bool) (file : list byte) (self : blendExpl) :
  ParseFile NDEBUG file = Ret (Parsed, self) ->
  exists ms, layout_invariant file self ms.
Proof.
  intros H. apply ParseFile_Parsed_inv in H.
  apply (parse_loop_layout NDEBUG file _ _ _ _ _) with (2 := H).
  unfold layout_invariant.
  cbn [MemorySpan.begin_ MemorySpan.end_ Cleanup m_file m_blockArray chunk_walk].
  repeat split; try constructor; lia.
Qed.

(** X14: every chunk stored by a parse, in the block array or in a
    children list, agrees with the file the object keeps: its descriptor
    is the 24-byte header found at its recorded offset, which is a multiple
    of 4 behind the signature, and its payload view begins behind that
    header and has the length the header declares. *)
Theorem ParseFile_blocks_match_file (NDEBUG : bool) (file : list byte)
    (self : blendExpl) :
  ParseFile NDEBUG file = Ret (Parsed, self) ->
  m_file self = file
  /\ Forall (block_matches file) (m_blockArray self)
  /\ Forall (fun b => Forall (block_matches file) (FileBlock.childBlocks b))
       (m_blockArray self).
Proof.
  intros H. destruct (ParseFile_layout _ _ _ H) as [ms Hinv].
  unfold layout_invariant in Hinv. tauto.
Qed.

Lemma ParseFile_blocks_match_file_witness :
  m_file sample = sample_file
  /\ Forall (block_matches sample_file) (m_blockArray sample)
  /\ Forall (fun b => Forall (block_matches sample_file)
                        (FileBlock.childBlocks b))
       (m_blockArray sample).
Proof.
  apply (ParseFile_blocks_match_file false). exact sample_parsed.
Defined.

(** X15: the chunks of a parse lie one behind the other in the file: the
    first one at offset 12, each next one at the offset behind the header
    and the declared payload of the one before, rounded up to a multiple
    of 4. *)
Theorem ParseFile_walks_chunks (NDEBUG : bool) (file : list byte)
    (self : blendExpl) :
  ParseFile NDEBUG file = Ret (Parsed, self) ->
  exists finish, chunk_walk 12 (m_blockArray self) finish.
Proof.
  intros H. destruct (ParseFile_layout _ _ _ H) as [ms Hinv].
  exists (MemorySpan.begin_ ms). unfold layout_invariant in Hinv. tauto.
Qed.

Lemma ParseFile_walks_chunks_witness :
  exists finish, chunk_walk 12 (m_blockArray sample) finish.
Proof.
  apply (ParseFile_walks_chunks false sample_file). exact sample_parsed.
Defined.

(** A turn of the loop changes the catalog only on the schema chunk. *)
Lemma parse_block_catalog (NDEBUG : bool) (self : blendExpl)
    (ms : MemorySpan.t) (pid : Z) (t : turn) :
  parse_block NDEBUG self ms pid = Ret t ->
  exists desc,
    read_desc (m_file self) (MemorySpan.begin_ ms) = Ret desc
    /\ (is_schema (block_at desc ms) = true
        \/ (m_nameArray (turn_state t) = m_nameArray self
            /\ m_typeArray (turn_state t) = m_typeArray self
            /\ m_structArray (turn_state t) = m_structArray self)).
Proof.
  unfold parse_block. cbv beta iota zeta delta [ReadTypePtr].
  unfold MemorySpan.Data, m_fileSpan.
  cbn [MemorySpan.begin_ MemorySpan.Advance].
  intros H. apply bind_Ret_inv in H. destruct H as [desc [Hd H]].
  exists desc. split; [exact Hd|].
  unfold is_schema, block_at. cbn [FileBlock.desc].
  destruct (Identify (FileBlockDesc64.code desc) BlockDATA 4).
  - right. bind_inv H. inversion H. subst. repeat split.
  - destruct (Identify (FileBlockDesc64.code desc) BlockSDNA 4);
      [left; reflexivity|right].
    destruct (Identify (FileBlockDesc64.code desc) EOBMark 4);
      inversion H; subst; repeat split.
Qed.

Lemma parse_loop_no_schema (NDEBUG : bool) :
  forall fuel self ms pid final,
    (Forall (fun b => is_schema b = false) (m_blockArray self) ->
     catalog_empty self) ->
    parse_loop NDEBUG fuel self ms pid = Ret final ->
    Forall (fun b => is_schema b = false) (m_blockArray final) ->
    catalog_empty final.
Proof.
  apply (parse_loop_rule NDEBUG
           (fun self _ _ =>
              Forall (fun b => is_schema b = false) (m_blockArray self) ->
              catalog_empty self)
           (fun final =>
              Forall (fun b => is_schema b = false) (m_blockArray final) ->
              catalog_empty final)).
  - intros self ms pid Hinv _. exact Hinv.
  - intros self ms pid t Hinv _ Ht.
    assert (Hgoal : Forall (fun b => is_schema b = false)
                      (m_blockArray (turn_state t)) ->
                    catalog_empty (turn_state t)).
    { intros Hnone.
      destruct (parse_block_catalog _ _ _ _ _ Ht) as [desc [Hd Hcat]].
      apply parse_block_cases in Ht. destruct Ht as [desc' [Hd' Hcases]].
      rewrite Hd in Hd'. inversion Hd'; subst desc'. cbv zeta in Hcases.
      assert (Hold : Forall (fun b => is_schema b = false)
                       (m_blockArray self ++ [block_at desc ms])).
      { destruct Hcases as [[_ [_ [blocks' [Hadd ->]]]]
                           |[[_ [_ [self' [Hb [_ ->]]]]]|[_ [_ ->]]]];
          cbn [turn_state] in Hnone.
        - rewrite m_blockArray_set in Hnone.
          apply add_child_inv in Hadd. destruct Hadd as [n [parent [_ [Hn ->]]]].
          apply (Forall_map is_schema (fun x => x = false)).
          apply (Forall_map is_schema (fun x => x = false)) in Hnone.
          rewrite (map_list_set_same is_schema _ n _ parent Hn) in Hnone
            by reflexivity.
          exact Hnone.
        - rewrite Hb in Hnone. exact Hnone.
        - rewrite m_blockArray_set in Hnone. exact Hnone. }
      apply Forall_app in Hold. destruct Hold as [Hold Hblock].
      inversion Hblock as [|? ? Hb _]; subst.
      destruct Hcat as [Hs|[Hn [Hty Hst]]]; [congruence|].
      destruct (Hinv Hold) as [En [Et Es]].
      unfold catalog_empty. rewrite Hn, Hty, Hst. auto. }
    destruct t; exact Hgoal.
Qed.

(** X16: a container without a schema chunk parses all the same, with an
    empty catalog; every offset lookup and every struct size lookup in it
    silently yields 0. *)
Theorem ParseFile_without_schema (NDEBUG : bool) (file : list byte)
    (self : blendExpl) :
  ParseFile NDEBUG file = Ret (Parsed, self) ->
  Forall (fun b => is_schema b = false) (m_blockArray self) ->
  catalog_empty self
  /\ forall S f, GetFieldOffset self S f = Ret 0
                 /\ GetStructSizeByName self S = Ret 0.
Proof.
  intros H Hnone. apply ParseFile_Parsed_inv in H.
  assert (Hc : catalog_empty self).
  { apply (parse_loop_no_schema NDEBUG _ (Cleanup file) _ _ _) with (2 := H);
      [|exact Hnone].
    intros _. repeat split. }
  split; [exact Hc|]. destruct Hc as [_ [_ Hs]].
  intros S f. unfold GetFieldOffset, GetStructSizeByName. rewrite Hs.
  split; reflexivity.
Qed.

Lemma ParseFile_without_schema_witness :
  catalog_empty collision
  /\ forall S f, GetFieldOffset collision S f = Ret 0
                 /\ GetStructSizeByName collision S = Ret 0.
Proof.
  apply (ParseFile_without_schema false collision_file).
  - vm_compute. reflexivity.
  - repeat constructor.
Defined.

(** ** ParseSDNA *)

Lemma Align4_begin_align4 (s : MemorySpan.t) :
  MemorySpan.begin_ (MemorySpan.Align4 s) = align4 (MemorySpan.begin_ s).
Proof.
  unfold align4, MemorySpan.Align4. cbn [MemorySpan.begin_].
  destruct (negb (Z.land (MemorySpan.begin_ s) 3 =? 0)); reflexivity.
Qed.

Lemma align4_ge (z : Z) : z <= align4 z.
Proof.
  exact (proj1 (Align4_forward (MemorySpan.mk z 0))).
Qed.

Lemma scan_to_nul_spec (file : list byte) (n : nat) :
  forall sp sp',
    scan_to_nul file n sp = Ret sp' ->
    MemorySpan.end_ sp' = MemorySpan.end_ sp
    /\ MemorySpan.begin_ sp <= MemorySpan.begin_ sp'
    /\ (forall p, MemorySpan.begin_ sp <= p < MemorySpan.begin_ sp' ->
          exists b, peek file p = Ret b /\ b <> x00)
    /\ (peek file (MemorySpan.begin_ sp') = Ret x00
        \/ MemorySpan.end_ sp <= MemorySpan.begin_ sp'
        \/ MemorySpan.begin_ sp' = MemorySpan.begin_ sp + Z.of_nat n).
Proof.
  induction n as [|n IH]; intros sp sp' H; cbn [scan_to_nul] in H.
  - inversion H; subst.
    split; [reflexivity|]. split; [lia|]. split; [intros p Hp; lia|].
    right. right. lia.
  - destruct (MemorySpan.Empty sp) eqn:Hempty.
    + inversion H; subst.
      split; [reflexivity|]. split; [lia|]. split; [intros p Hp; lia|].
      right. left. unfold MemorySpan.Empty in Hempty. lia.
    + apply bind_Ret_inv in H. destruct H as [b [Hb H]].
      unfold MemorySpan.Data in Hb.
      destruct (Byte.eqb b x00) eqn:Hz.
      * inversion H; subst. apply Byte.byte_dec_bl in Hz. subst b.
        split; [reflexivity|]. split; [lia|]. split; [intros p Hp; lia|].
        left. exact Hb.
      * apply IH in H. cbn [MemorySpan.Advance MemorySpan.begin_
                             MemorySpan.end_] in H.
        destruct H as [He [Hle [Hrun Hstop]]].
        split; [exact He|]. split; [lia|]. split.
        -- intros p Hp.
           destruct (Z.eq_dec p (MemorySpan.begin_ sp)) as [->|Hne].
           ++ exists b. split; [exact Hb|].
              intros ->. rewrite (Byte.byte_dec_lb (eq_refl x00)) in Hz.
              discriminate.
           ++ apply Hrun. lia.
        -- destruct Hstop as [Hs|[Hs|Hs]]; [left; exact Hs|right; left; lia|].
           right. right. lia.
Qed.

(** One string of the NAME or TYPE section: the span begins at the
    cursor and ends behind the first 0 from there on, unless the stream
    ends before a 0; the cursor is left at the end of the span. *)
Lemma read_string_spec (file : list byte) (sp s sp' : MemorySpan.t) :
  read_string file sp = Ret (s, sp') ->
  MemorySpan.begin_ s = MemorySpan.begin_ sp
  /\ MemorySpan.end_ s = MemorySpan.begin_ sp'
  /\ MemorySpan.end_ sp' = MemorySpan.end_ sp
  /\ MemorySpan.begin_ s < MemorySpan.end_ s
  /\ (peek file (MemorySpan.end_ s - 1) = Ret x00
      \/ MemorySpan.end_ sp <= MemorySpan.end_ s - 1)
  /\ forall p, MemorySpan.begin_ s <= p < MemorySpan.end_ s - 1 ->
       exists b, peek file p = Ret b /\ b <> x00.
Proof.
  unfold read_string. intros H.
  apply bind_Ret_inv in H. destruct H as [sp1 [Hscan H]].
  inversion H; subst. clear H.
  apply scan_to_nul_spec in Hscan.
  destruct Hscan as [He [Hle [Hrun Hstop]]].
  unfold MemorySpan.Data.
  cbn [MemorySpan.Advance MemorySpan.begin_ MemorySpan.end_].
  replace (MemorySpan.begin_ sp1 + 1 - 1) with (MemorySpan.begin_ sp1) by lia.
  repeat split; try lia; try assumption.
  destruct Hstop as [Hs|[Hs|Hs]]; [left; exact Hs|right; lia|right; lia].
Qed.

(** The strings of a NAME or TYPE section: [count] spans, appended to
    the table, that lie one behind the other from the cursor on. *)
Lemma read_strings_spec {A : Type} (entry : MemorySpan.t -> A)
    (file : list byte) (count : nat) :
  forall sp array array' sp',
    read_strings entry file count sp array = Ret (array', sp') ->
    exists spans,
      array' = array ++ map entry spans
      /\ List.length spans = count
      /\ span_walk (MemorySpan.begin_ sp) spans (MemorySpan.begin_ sp')
      /\ MemorySpan.end_ sp' = MemorySpan.end_ sp
      /\ MemorySpan.begin_ sp <= MemorySpan.begin_ sp'
      /\ (MemorySpan.begin_ sp' <= MemorySpan.end_ sp ->
          Forall (c_string_span file) spans).
Proof.
  induction count as [|n IH]; intros sp array array' sp' H;
    cbn [read_strings] in H.
  - inversion H; subst. exists []. rewrite app_nil_r.
    repeat split; try lia. intros _. constructor.
  - apply bind_Ret_inv in H. destruct H as [[s sp1] [Hs H]].
    apply read_string_spec in Hs.
    destruct Hs as [Hb [He [Hend [Hlt [Hstop Hrun]]]]].
    apply IH in H.
    destruct H as [spans [-> [Hlen [Hwalk [Hend' [Hle Hall]]]]]].
    exists (s :: spans). rewrite <- app_assoc.
    split; [reflexivity|]. split; [simpl; lia|]. split.
    { cbn [span_walk]. split; [exact Hb|]. rewrite He. exact Hwalk. }
    split; [lia|]. split; [lia|].
    intros Hin. constructor; [|apply Hall; lia].
    split; [exact Hlt|]. split; [|exact Hrun].
    destruct Hstop as [Hs|Hs]; [exact Hs|lia].
Qed.

Lemma read_lengths_cursor (file : list byte) (count : nat) :
  forall i span types types' span',
    read_lengths file count i span types = Ret (types', span') ->
    MemorySpan.begin_ span'
    = MemorySpan.begin_ span + 2 * Z.of_nat count.
Proof.
  induction count as [|n IH]; intros i span types types' span' H;
    cbn [read_lengths] in H.
  - inversion H; subst. lia.
  - cbv beta iota zeta delta [ReadTypePtr] in H.
    bind_inv H. apply IH in H.
    cbn [MemorySpan.Advance MemorySpan.begin_] in H. lia.
Qed.

Lemma read_lengths_keeps_types (file : list byte) (count : nat) :
  forall i span types types' span',
    read_lengths file count i span types = Ret (types', span') ->
    map TypeInfo.type types' = map TypeInfo.type types.
Proof.
  induction count as [|n IH]; intros i span types types' span' H;
    cbn [read_lengths] in H.
  - inversion H; reflexivity.
  - cbv beta iota zeta delta [ReadTypePtr] in H.
    apply bind_Ret_inv in H. destruct H as [len [_ H]].
    apply bind_Ret_inv in H. destruct H as [ti [Hti H]].
    apply IH in H. rewrite H.
    destruct (vector_at_nth _ _ _ Hti) as [k [-> Hk]].
    rewrite (vector_set_nth _ _ _ _ Hk).
    apply (map_list_set_same TypeInfo.type _ k _ ti Hk). reflexivity.
Qed.

Lemma length_list_set {A : Type} (l : list A) : forall n a,
  List.length (list_set l n a) = List.length l.
Proof.
  induction l as [|x l IH]; intros [|n] a; simpl; auto.
Qed.

Lemma length_vector_set {A : Type} (l : list A) (i : Z) (a : A) :
  List.length (vector_set l i a) = List.length l.
Proof.
  unfold vector_set. destruct (in_range _ _); [apply length_list_set|reflexivity].
Qed.

Lemma read_structs_keeps_length (file : list byte) (count : nat) :
  forall i span structs structs' span',
    read_structs file count i span structs = Ret (structs', span') ->
    List.length structs' = List.length structs.
Proof.
  induction count as [|n IH]; intros i span structs structs' span' H;
    cbn [read_structs] in H.
  - inversion H; reflexivity.
  - cbv beta iota zeta delta [ReadTypePtr] in H.
    bind_inv H. apply IH in H. rewrite H. apply length_vector_set.
Qed.

Lemma length_vector_resize {A : Type} (d : A) (v : list A) (n : nat) :
  List.length (vector_resize d v n) = n.
Proof.
  unfold vector_resize. rewrite length_app, length_firstn, repeat_length. lia.
Qed.

Lemma read_uint_4_bounds (file : list byte) (p v : Z) :
  read_uint file p 4 = Ret v ->
  0 <= v /\ p + 4 <= Z.of_nat (List.length file).
Proof.
  unfold read_uint. intros H. apply bind_Ret_inv in H.
  destruct H as [bs [Hbs H]]. inversion H; subst.
  split; [apply le_value_nonneg|].
  apply read_bytes_bounds in Hbs. lia.
Qed.

(** X17: the sections of a schema chunk.  Called on a stream that runs to
    the end of the file, [ParseSDNA] appends to the name table the strings
    that lie one behind the other from 12 bytes into the payload, as many
    as the 32-bit count 8 bytes into the payload says; appends to the type
    table the strings behind the next tag and count, which lie at the next
    multiple of 4; and resizes the struct table to the count that lies
    behind the 16-bit lengths of those types and the next tag.  Each
    string ends at its first 0.  The chunks and the file are left alone. *)
Theorem ParseSDNA_extends_tables (NDEBUG : bool) (self self' : blendExpl)
    (block : Z) (blockSpan : MemorySpan.t) :
  MemorySpan.end_ blockSpan = Z.of_nat (List.length (m_file self)) ->
  ParseSDNA NDEBUG self block blockSpan = Ret self' ->
  exists names types namesEnd typesEnd,
    let file := m_file self in
    let payload := MemorySpan.begin_ blockSpan in
    let typeCountAt := align4 namesEnd + 4 in
    let structCountAt :=
      align4 (align4 typesEnd + 4 + 2 * Z.of_nat (List.length types)) + 4 in
    m_nameArray self' = m_nameArray self ++ names
    /\ read_uint file (payload + 8) 4 = Ret (Z.of_nat (List.length names))
    /\ span_walk (payload + 12) names namesEnd
    /\ Forall (c_string_span file) names
    /\ map TypeInfo.type (m_typeArray self')
       = map TypeInfo.type (m_typeArray self) ++ types
    /\ read_uint file typeCountAt 4 = Ret (Z.of_nat (List.length types))
    /\ span_walk (typeCountAt + 4) types typesEnd
    /\ Forall (c_string_span file) types
    /\ read_uint file structCountAt 4
       = Ret (Z.of_nat (List.length (m_structArray self')))
    /\ m_blockArray self' = m_blockArray self
    /\ m_file self' = m_file self.
Proof.
  unfold ParseSDNA. cbv beta iota zeta delta [ReadTypePtr].
  unfold MemorySpan.Data. intros Hstream H.
  apply bind_Ret_inv in H. destruct H as [sz [_ H]].
  apply bind_Ret_inv in H. destruct H as [u1 [_ H]].
  apply bind_Ret_inv in H. destruct H as [u2 [_ H]].
  apply bind_Ret_inv in H. destruct H as [nameCount [Hnc H]].
  apply bind_Ret_inv in H. destruct H as [[nameArray sp1] [Hnames H]].
  apply bind_Ret_inv in H. destruct H as [u3 [_ H]].
  apply bind_Ret_inv in H. destruct H as [typeCount [Htc H]].
  apply bind_Ret_inv in H. destruct H as [[typeArray sp2] [Htypes H]].
  apply bind_Ret_inv in H. destruct H as [u4 [_ H]].
  apply bind_Ret_inv in H. destruct H as [[typeArray' sp3] [Hlens H]].
  apply bind_Ret_inv in H. destruct H as [u5 [_ H]].
  apply bind_Ret_inv in H. destruct H as [structCount [Hsc H]].
  apply bind_Ret_inv in H. destruct H as [[structArray sp4] [Hstructs H]].
  inversion H; subst self'. clear H.
  apply read_strings_spec in Hnames.
  destruct Hnames as [names [-> [Hn [Hwn [Hen [Hln Hcn]]]]]].
  apply read_strings_spec in Htypes.
  destruct Htypes as [types [-> [Ht [Hwt [Het [Hlt Hct]]]]]].
  pose proof (read_lengths_cursor _ _ _ _ _ _ _ Hlens) as Hcur.
  apply read_lengths_keeps_types in Hlens.
  apply read_structs_keeps_length in Hstructs.
  rewrite length_vector_resize in Hstructs.
  cbn [MemorySpan.begin_ MemorySpan.end_ MemorySpan.Advance] in *.
  rewrite ?Align4_begin_align4 in *.
  rewrite ?(proj2 (Align4_forward _)) in *.
  cbn [MemorySpan.begin_ MemorySpan.end_ MemorySpan.Advance] in *.
  destruct (read_uint_4_bounds _ _ _ Hnc) as [Hnc0 _].
  destruct (read_uint_4_bounds _ _ _ Htc) as [Htc0 Htcb].
  destruct (read_uint_4_bounds _ _ _ Hsc) as [Hsc0 Hscb].
  exists names, types, (MemorySpan.begin_ sp1), (MemorySpan.begin_ sp2).
  cbv zeta. cbn [m_nameArray m_typeArray m_structArray m_blockArray m_file].
  assert (En : Z.of_nat (List.length names) = nameCount) by lia.
  assert (Et : Z.of_nat (List.length types) = typeCount) by lia.
  rewrite En, Et.
  replace (align4 (MemorySpan.begin_ sp1) + 4)
    with (align4 (MemorySpan.begin_ sp1) + 1 * 4) by lia.
  pose proof (align4_ge (MemorySpan.begin_ sp1)) as Ha1.
  pose proof (align4_ge (MemorySpan.begin_ sp2)) as Ha2.
  split; [rewrite map_id; reflexivity|].
  split.
  { replace (MemorySpan.begin_ blockSpan + 8)
      with (MemorySpan.begin_ blockSpan + 1 * 4 + 1 * 4) by lia.
    exact Hnc. }
  split.
  { replace (MemorySpan.begin_ blockSpan + 12)
      with (MemorySpan.begin_ blockSpan + 1 * 4 + 1 * 4 + 4 * 1) by lia.
    exact Hwn. }
  split; [apply Hcn; lia|].
  split; [rewrite Hlens, map_app, map_map; cbn [TypeInfo.type];
          rewrite map_id; reflexivity|].
  split; [exact Htc|].
  split.
  { replace (align4 (MemorySpan.begin_ sp1) + 1 * 4 + 4)
      with (align4 (MemorySpan.begin_ sp1) + 1 * 4 + 4 * 1) by lia.
    exact Hwt. }
  split.
  { apply Hct.
    pose proof (align4_ge (MemorySpan.begin_ sp3)) as Ha3.
    rewrite Hcur in *. lia. }
  split.
  { rewrite Hstructs, Z2Nat.id by exact Hsc0.
    rewrite Hcur in Hsc.
    replace (align4 (align4 (MemorySpan.begin_ sp2) + 4 + 2 * typeCount) + 4)
      with (align4 (align4 (MemorySpan.begin_ sp2) + 1 * 4
                    + 2 * Z.of_nat (Z.to_nat typeCount)) + 1 * 4)
      by (rewrite Z2Nat.id by exact Htc0; f_equal).
    exact Hsc. }
  split; reflexivity.
Qed.

(** The schema chunk of the sample, on empty tables: 12 names, 11 types
    and 6 structs. *)
Lemma ParseSDNA_extends_tables_witness :
  exists names types namesEnd typesEnd,
    let file := m_file (Cleanup sample_file) in
    let payload := 848 in
    let typeCountAt := align4 namesEnd + 4 in
    let structCountAt :=
      align4 (align4 typesEnd + 4 + 2 * Z.of_nat (List.length types)) + 4 in
    m_nameArray sample_schema = m_nameArray (Cleanup sample_file) ++ names
    /\ read_uint file (payload + 8) 4 = Ret (Z.of_nat (List.length names))
    /\ span_walk (payload + 12) names namesEnd
    /\ Forall (c_string_span file) names
    /\ map TypeInfo.type (m_typeArray sample_schema)
       = map TypeInfo.type (m_typeArray (Cleanup sample_file)) ++ types
    /\ read_uint file typeCountAt 4 = Ret (Z.of_nat (List.length types))
    /\ span_walk (typeCountAt + 4) types typesEnd
    /\ Forall (c_string_span file) types
    /\ read_uint file structCountAt 4
       = Ret (Z.of_nat (List.length (m_structArray sample_schema)))
    /\ m_blockArray sample_schema = m_blockArray (Cleanup sample_file)
    /\ m_file sample_schema = m_file (Cleanup sample_file).
Proof.
  apply (ParseSDNA_extends_tables false (Cleanup sample_file) sample_schema 824
           (MemorySpan.mk 848 (Z.of_nat (List.length sample_file)))).
  - reflexivity.
  - vm_compute. reflexivity.
Defined.

(** ** Well-formed schemas *)


















Lemma packed_sample_parsed :
  ParseFile false packed_file = Ret (Parsed, packed_sample).
Proof. vm_compute. reflexivity. Qed.



